(** * Great Leader skill: a shallow embedding of [great_leader.py]

    The skill keeps, per conversation, two pools of not-yet-served indices
    (tips and quiz questions), the progress through the active quiz question,
    and grades the collected answers with [difflib.get_close_matches].

    Python values are modelled as follows: [int] is [Z], [str] is [string],
    a list is a [list], the dict [graded['correct']] is a [gmap string string],
    an exception is a constructor of [exn].  The interpreter is Python 2, as
    the source requires ([range] returns a list that [pop] can shrink); the
    order in which it iterates over a dict is left open, as a parameter. *)

From Stdlib Require Import ZArith QArith Lia.
From stdpp Require Import base gmap strings list fin_maps sorting pretty.

Local Open Scope Z_scope.

(** ** Python runtime pieces used by the skill *)

Module Py.

(** The exceptions that the modelled code can raise. *)
Inductive exn : Type :=
| ValueError (msg : string)
| KeyError (key : string)
| IndexError (msg : string)
| TypeError (msg : string)
| UnboundLocalError (var : string)
| RuntimeError (msg : string).

(** Outcome of a call: a value or a raised exception. *)
Inductive res (A : Type) : Type :=
| Ok (a : A)
| Raise (e : exn).
Arguments Ok {A} a.
Arguments Raise {A} e.

Definition len {A} (l : list A) : Z := Z.of_nat (length l).

(** [l[i]] with Python's negative indices. *)
Definition getitem {A} (l : list A) (i : Z) : res A :=
  let j := if i <? 0 then i + len l else i in
  if (j <? 0) || (len l <=? j) then Raise (IndexError "list index out of range")
  else match l !! Z.to_nat j with
       | Some x => Ok x
       | None => Raise (IndexError "list index out of range")
       end.

(** [l.pop(i)]: the removed element and the shrunk list. *)
Definition pop {A} (l : list A) (i : Z) : res (A * list A) :=
  let j := if i <? 0 then i + len l else i in
  if (j <? 0) || (len l <=? j) then Raise (IndexError "pop index out of range")
  else match l !! Z.to_nat j with
       | Some x => Ok (x, delete (Z.to_nat j) l)
       | None => Raise (IndexError "pop index out of range")
       end.

(** [range(n)] of Python 2: the list [0, 1, ..., n-1]. *)
Definition range (n : Z) : list Z := Z.of_nat <$> seq 0 (Z.to_nat n).

(** [l.remove(x)]: drops the first occurrence of [x]. *)
Fixpoint remove (x : string) (l : list string) : res (list string) :=
  match l with
  | [] => Raise (ValueError "list.remove(x): x not in list")
  | y :: l' =>
      if decide (y = x) then Ok l'
      else match remove x l' with
           | Ok r => Ok (y :: r)
           | Raise e => Raise e
           end
  end.

End Py.
Import Py.

(** ** Response composer: [concatenate_text_items] *)

(** The body of [for i, elem in enumerate(items)], with [n = len(items)]. *)
Fixpoint concatenate_loop (n i : Z) (items : list string) (nat_list : string)
  : string :=
  match items with
  | [] => nat_list
  | elem :: rest =>
      let nat_list := nat_list +:+ elem in
      let nat_list :=
        if i <? n - 2 then nat_list +:+ ", "
        else if i =? n - 2 then nat_list +:+ ", and "
        else nat_list in
      concatenate_loop n (i + 1) rest nat_list
  end.

Definition concatenate_text_items (items : list string) : string :=
  concatenate_loop (len items) 0 items "".

(** The text that the loop emits for all items but the last two. *)
Definition comma_separated (items : list string) : string :=
  foldr (fun x acc => x +:+ ", " +:+ acc) "" items.

(** ** [difflib]: the similarity score behind [get_close_matches]

    [SequenceMatcher(None, a, b).ratio()] for strings shorter than 200
    characters (below that length the [autojunk] heuristic is inactive and no
    character is junk).  The score [2.0 * M / T] is kept as the exact rational:
    both [M] and [T] are bounded by the lengths of the strings, so the
    comparisons made on the floating-point value agree with the exact ones. *)

Module Difflib.

(** Length of the block on which [a] and [b] agree from their first
    elements on. *)
Fixpoint common_prefix (a b : list Ascii.ascii) : nat :=
  match a, b with
  | x :: a', y :: b' =>
      if decide (x = y) then S (common_prefix a' b') else 0%nat
  | _, _ => 0%nat
  end.

(** A match [(i, j, k)]: [a[i:i+k] == b[j:j+k]]. *)
Definition Match : Type := nat * nat * nat.
Definition size (m : Match) : nat := snd m.

(** Blocks of [b] against a fixed position [i] of [a]; a block replaces the
    best one only when it is strictly longer ([if k > bestsize]). *)
Fixpoint scan_b (a_from_i b_from_j : list Ascii.ascii) (i j : nat) (best : Match)
  : Match :=
  match b_from_j with
  | [] => best
  | _ :: b' =>
      let k := common_prefix a_from_i b_from_j in
      let best := if (size best <? k)%nat then (i, j, k) else best in
      scan_b a_from_i b' i (S j) best
  end.

Fixpoint scan_a (a_from_i b : list Ascii.ascii) (i : nat) (best : Match) : Match :=
  match a_from_i with
  | [] => best
  | _ :: a' => scan_a a' b (S i) (scan_b a_from_i b i 0 best)
  end.

(** [find_longest_match]: the longest block, the one starting earliest in
    [a] among the longest, and earliest in [b] among those. *)
Definition find_longest_match (a b : list Ascii.ascii) : Match :=
  scan_a a b 0 (0, 0, 0)%nat.

(** Total size of [get_matching_blocks()]: the longest match, then the
    pieces to its left and to its right.  [depth] bounds the nesting, which
    never exceeds the length of [a]. *)
Fixpoint matches (depth : nat) (a b : list Ascii.ascii) : nat :=
  match depth with
  | O => 0
  | S depth' =>
      let '(i, j, k) := find_longest_match a b in
      if (k =? 0)%nat then 0
      else (k + matches depth' (take i a) (take j b)
              + matches depth' (drop (i + k) a) (drop (j + k) b))%nat
  end.

(** [_calculate_ratio(matches, length)]. *)
Definition calculate_ratio (m length : nat) : Q :=
  if (length =? 0)%nat then 1%Q
  else (2 * Z.of_nat m # Pos.of_nat length)%Q.

Definition ratio (a b : string) : Q :=
  let la := String.list_ascii_of_string a in
  let lb := String.list_ascii_of_string b in
  calculate_ratio (matches (S (length la)) la lb) (length la + length lb).

End Difflib.

(** ** [difflib.get_close_matches(word, possibilities, n=3, cutoff=0.8)]

    The candidates whose score reaches the cutoff are collected as
    [(score, x)] pairs, the [n] largest pairs are kept, best first, and the
    scores are stripped.  The score is [SequenceMatcher.ratio] with the
    candidate as first sequence and the word as second; the two quick ratios
    tested before it are upper bounds of it and filter nothing more. *)

Section CloseMatches.

Variable ratio : string -> string -> Q.

Definition cutoff : Q := 8 # 10.

Fixpoint scored (word : string) (possibilities : list string)
  : list (Q * string) :=
  match possibilities with
  | [] => []
  | x :: rest =>
      if Qle_bool cutoff (ratio x word)
      then (ratio x word, x) :: scored word rest
      else scored word rest
  end.

(** Python's order on [(score, x)] tuples: by score, then by string. *)
Definition pair_leb (p q : Q * string) : bool :=
  match (p.1 ?= q.1)%Q with
  | Lt => true
  | Gt => false
  | Eq => String.leb p.2 q.2
  end.

Fixpoint insert_desc (p : Q * string) (l : list (Q * string))
  : list (Q * string) :=
  match l with
  | [] => [p]
  | q :: l' => if pair_leb q p then p :: q :: l' else q :: insert_desc p l'
  end.

Definition sort_desc (l : list (Q * string)) : list (Q * string) :=
  foldr insert_desc [] l.

(** [heapq.nlargest(n, result)]: the [n] largest, largest first. *)
Definition nlargest (n : nat) (l : list (Q * string)) : list (Q * string) :=
  take n (sort_desc l).

Definition get_close_matches (word : string) (possibilities : list string)
  : list string :=
  snd <$> nlargest 3 (scored word possibilities).

(** Ranking by score alone, best first. *)
Definition score_ge (p q : Q * string) : Prop := (q.1 <= p.1)%Q.

End CloseMatches.

(** ** Content catalog, templates and session data *)

(** An entry of [leadership_quiz]. *)
Record answer : Type := Answer { value : string }.

Record quiz_question : Type := QuizQuestion {
  question_text : string;         (* ['question'] *)
  type : string;                  (* ['type'] *)
  answers : list answer           (* ['answers'] *)
}.

(** A call [render_template(name, **kwargs)]. *)
Inductive template : Type :=
| need_one_more_answer
| need_more_answers (n_missing : Z)
| incorrect_answer (wrong_answer correct_answer : string)
| incorrect_answers (wrong_answers correct_answers : string)
| continue
| card_title.

(** What an intent handler returns: [question(speech).reprompt(text)],
    possibly with [.simple_card(title, content)]. *)
Record response : Type := Question {
  speech : string;
  reprompt : string;
  simple_card : option (string * string)
}.

Definition question (speech_output reprompt_text : string) : response :=
  Question speech_output reprompt_text None.

(** [session.attributes['state']]: [{'context':'tip'}] or the quiz dict. *)
Inductive state_dict : Type :=
| TipContext
| QuizContext (index : Z) (ques_type : string) (n_responses : Z)
              (responses : list string).

(** [session.attributes]; a key that was never assigned is [None]. *)
Record attributes : Type := Attributes {
  rem_quiz_ques : option (list Z);
  rem_tips : option (list Z);
  state : option state_dict
}.

(** The mutable world of a request: the session attributes and the state of
    the [random] module, a tape of raw draws with a read position. *)
Record world : Type := World {
  session : attributes;
  tape : nat -> nat;
  position : nat
}.

(** [graded] as built by [check_answers]. *)
Record graded_dict : Type := Graded {
  correct : gmap string string;
  incorrect : list string;
  missing : option (list string)
}.

(** The values of a dict, as a list; it is used up to the order only. *)
Definition dict_values (d : gmap string string) : list string :=
  (map_to_list d).*2.

(** ** State and exception monad of the handlers

    A raised exception keeps the world as mutated so far: the session dict is
    updated in place. *)

Definition M (A : Type) : Type := world -> res A * world.

Definition ret {A} (a : A) : M A := fun w => (Ok a, w).

Definition raise {A} (e : exn) : M A := fun w => (Raise e, w).

Definition bind {A B} (c : M A) (k : A -> M B) : M B :=
  fun w =>
    match c w with
    | (Ok a, w') => k a w'
    | (Raise e, w') => (Raise e, w')
    end.

Definition lift {A} (r : res A) : M A := fun w => (r, w).

Notation "x <- c ;; k" := (bind c (fun x => k))
  (at level 100, c at next level, right associativity).
Notation "c ;;; k" := (bind c (fun _ => k))
  (at level 100, right associativity).

(** [try: body except ValueError: handler]. *)
Definition try_except_ValueError {A} (body handler : M A) : M A :=
  fun w =>
    match body w with
    | (Raise (ValueError _), w') => handler w'
    | r => r
    end.

(** [session.attributes[key]] and [session.attributes[key] = v]. *)
Definition get_attr {A} (field : attributes -> option A) (key : string) : M A :=
  fun w =>
    match field (session w) with
    | Some v => (Ok v, w)
    | None => (Raise (KeyError key), w)
    end.

Definition set_session (f : attributes -> attributes) : M unit :=
  fun w => (Ok tt, World (f (session w)) (tape w) (position w)).

Definition set_rem_quiz_ques (l : list Z) : M unit :=
  set_session (fun s => Attributes (Some l) (rem_tips s) (state s)).

Definition set_rem_tips (l : list Z) : M unit :=
  set_session (fun s => Attributes (rem_quiz_ques s) (Some l) (state s)).

Definition set_state (st : state_dict) : M unit :=
  set_session (fun s => Attributes (rem_quiz_ques s) (rem_tips s) (Some st)).

(** [state['n_responses']], [state['responses']], [state['index']]. *)
Definition state_n_responses (st : state_dict) : res Z :=
  match st with
  | QuizContext _ _ n _ => Ok n
  | TipContext => Raise (KeyError "n_responses")
  end.

Definition state_responses (st : state_dict) : res (list string) :=
  match st with
  | QuizContext _ _ _ r => Ok r
  | TipContext => Raise (KeyError "responses")
  end.

Definition state_index (st : state_dict) : res Z :=
  match st with
  | QuizContext i _ _ _ => Ok i
  | TipContext => Raise (KeyError "index")
  end.

(** [random.randint(a, b)]: [ValueError] on an empty range, otherwise the
    next raw draw reduced into [[a, b]]. *)
Definition randint (a b : Z) : M Z :=
  fun w =>
    if b <? a then (Raise (ValueError "empty range for randrange()"), w)
    else (Ok (a + Z.of_nat (tape w (position w)) mod (b - a + 1)),
          World (session w) (tape w) (S (position w))).

(** ** The skill *)

Section Skill.

(** [SequenceMatcher(None, a, b).ratio()] of [difflib]. *)
Variable ratio : string -> string -> Q.

(** The catalog read from [speech_assets/leadership_knowledge.json]. *)
Variable leadership_quiz : list quiz_question.
Variable leadership_tips : list string.

(** The templates of the skill, rendered to text. *)
Variable render_template : template -> string.

(** The order in which the interpreter yields the keys of a dict that is
    iterated.  The language leaves it open; all that is known is that every
    key comes once. *)
Variable dict_iter : gmap string string -> list string.

(** [sys.getrecursionlimit()]. *)
Variable recursion_limit : nat.

Definition init_session : M unit :=
  set_rem_quiz_ques (range (len leadership_quiz)) ;;;
  set_rem_tips (range (len leadership_tips)).

Definition init_quiz_state (i_quiz : Z) : M unit :=
  q <- lift (getitem leadership_quiz i_quiz) ;;
  let ques_type := type q in
  n_responses <-
    (if decide (ques_type = "single_part") then ret 1
     else if decide (ques_type = "multi_part") then ret (len (answers q))
     else raise (ValueError "Unknown question type")) ;;
  set_state (QuizContext i_quiz ques_type n_responses []).

(** [depth] is the number of nested calls that the interpreter still
    allows. *)
Fixpoint get_tip_from_sess (depth : nat) : M Z :=
  match depth with
  | O => raise (RuntimeError "maximum recursion depth exceeded")
  | S depth' =>
      try_except_ValueError
        (pool <- get_attr rem_tips "rem_tips" ;;
         i_tip <- randint 0 (len pool - 1) ;;
         pool <- get_attr rem_tips "rem_tips" ;;
         popped <- lift (pop pool i_tip) ;;
         set_rem_tips popped.2 ;;;
         ret popped.1)
        (set_rem_tips (range (len leadership_tips)) ;;;
         get_tip_from_sess depth')
  end.

Fixpoint get_quiz_ques_from_sess (depth : nat) : M Z :=
  match depth with
  | O => raise (RuntimeError "maximum recursion depth exceeded")
  | S depth' =>
      try_except_ValueError
        (pool <- get_attr rem_quiz_ques "rem_quiz_ques" ;;
         i_quiz_ques <- randint 0 (len pool - 1) ;;
         pool <- get_attr rem_quiz_ques "rem_quiz_ques" ;;
         popped <- lift (pop pool i_quiz_ques) ;;
         set_rem_quiz_ques popped.2 ;;;
         ret popped.1)
        (set_rem_quiz_ques (range (len leadership_quiz)) ;;;
         get_quiz_ques_from_sess depth')
  end.

Definition prompt_user_for_more_answers : M response :=
  st <- get_attr state "state" ;;
  n <- lift (state_n_responses st) ;;
  r <- lift (state_responses st) ;;
  let n_missing := n - len r in
  speech <-
    (if n_missing =? 1 then ret (render_template need_one_more_answer)
     else if n_missing >? 1 then
       ret (render_template (need_more_answers n_missing))
     else raise (UnboundLocalError "speech")) ;;
  ret (question speech speech).

(** The loop [for resp in response] of [check_answers], on its four
    variables. *)
Fixpoint check_loop (response : list string) (all_correct : bool)
    (correct : gmap string string) (incorrect known_answers : list string)
  : res (bool * gmap string string * list string * list string) :=
  match response with
  | [] => Ok (all_correct, correct, incorrect, known_answers)
  | resp :: rest =>
      match get_close_matches ratio resp known_answers with
      | match0 :: _ =>
          match remove match0 known_answers with
          | Ok known_answers' =>
              check_loop rest all_correct (<[resp := match0]> correct)
                         incorrect known_answers'
          | Raise e => Raise e
          end
      | [] => check_loop rest false correct (incorrect ++ [resp])
                         known_answers
      end
  end.

(** [check_answers] from [all_correct = True] on, as a function of the
    responses and of the known answers of the question. *)
Definition grade (response known_answers : list string)
  : res (bool * graded_dict) :=
  match check_loop response true ∅ [] known_answers with
  | Ok (all_correct, correct, incorrect, known_answers) =>
      Ok (all_correct,
          Graded correct incorrect
                 (if 0 <? len known_answers then Some known_answers
                  else None))
  | Raise e => Raise e
  end.

Definition check_answers : M (bool * graded_dict) :=
  st <- get_attr state "state" ;;
  response <- lift (state_responses st) ;;
  i_quiz <- lift (state_index st) ;;
  q <- lift (getitem leadership_quiz i_quiz) ;;
  let known_answers := value <$> answers q in
  lift (grade response known_answers).

Definition process_answers : M string :=
  checked <- check_answers ;;
  let '(all_correct, graded) := checked in
  if all_correct then ret "Great job! That is correct."
  else if len (incorrect graded) =? 1 then
    wrong <- lift (getitem (incorrect graded) 0) ;;
    right <- match missing graded with
             | Some l => lift (getitem l 0)
             | None => raise (TypeError "'NoneType' object has no attribute '__getitem__'")
             end ;;
    ret (render_template (incorrect_answer wrong right))
  else
    let wrong_answers := concatenate_text_items (incorrect graded) in
    let correct_answers :=
      concatenate_text_items (dict_iter (correct graded)) in
    ret (render_template (incorrect_answers wrong_answers correct_answers)).

(** [state['responses'].extend(answers)], in place. *)
Definition responses_extend (new_answers : list string) : M unit :=
  st <- get_attr state "state" ;;
  match st with
  | QuizContext i t n r => set_state (QuizContext i t n (r ++ new_answers))
  | TipContext => raise (KeyError "responses")
  end.

Definition manage_quiz_state (new_answers : list string) : M response :=
  responses_extend new_answers ;;;
  st <- get_attr state "state" ;;
  r <- lift (state_responses st) ;;
  n <- lift (state_n_responses st) ;;
  if len r =? n then
    speech_output <- process_answers ;;
    let speech_output := speech_output +:+ " " +:+ render_template continue in
    ret (question speech_output speech_output)
  else prompt_user_for_more_answers.

(** *** Intent handlers *)

Definition launch : M response :=
  init_session ;;;
  ret (question "Do you want a leadership tip or to play the quiz?"
                "With Great Leader, you can get leadership tips to expand your knowledge of leadership or you can test your current knowledge by playing the quiz").

Definition get_new_tip : M response :=
  set_session (fun s => Attributes (rem_quiz_ques s) (rem_tips s)
                                   (Some TipContext)) ;;;
  i_tip <- get_tip_from_sess recursion_limit ;;
  tip <- lift (getitem leadership_tips i_tip) ;;
  let res_text := "Would you like another fact or the quiz?" in
  ret (Question (tip +:+ ". " +:+ res_text) res_text
                (Some (render_template card_title, tip))).

Definition play_quiz : M response :=
  i_quiz <- get_quiz_ques_from_sess recursion_limit ;;
  init_quiz_state i_quiz ;;;
  q <- lift (getitem leadership_quiz i_quiz) ;;
  ret (question (question_text q) (question_text q)).

Definition single_answer (a : string) : M response :=
  manage_quiz_state [a].

Definition two_answer (answer_one answer_two : string) : M response :=
  manage_quiz_state [answer_one; answer_two].

Definition five_answer (answer_one answer_two answer_three answer_four
                        answer_five : string) : M response :=
  manage_quiz_state
    [answer_one; answer_two; answer_three; answer_four; answer_five].

End Skill.

(** ** Derived notions used in the statements *)

(** The world after [session.attributes['state'] = st]. *)
Definition with_state (w : world) (st : state_dict) : world :=
  World (Attributes (rem_quiz_ques (session w)) (rem_tips (session w)) (Some st))
        (tape w) (position w).

(** [n] consecutive calls of a pick, with the indices served in order. *)
Fixpoint draw (pick : M Z) (n : nat) : M (list Z) :=
  match n with
  | O => ret []
  | S n' =>
      i <- pick ;;
      served <- draw pick n' ;;
      ret (i :: served)
  end.

(** The pool from which a pick is served: the stored one, or the full range
    when the stored one is exhausted. *)
Definition serving_pool (size : Z) (pool : list Z) : list Z :=
  if len pool =? 0 then range size else pool.

(** The world after a pick has stored the pool [pool] and consumed one raw
    draw. *)
Definition with_rem_tips (w : world) (pool : list Z) (consumed : nat) : world :=
  World (Attributes (rem_quiz_ques (session w)) (Some pool) (state (session w)))
        (tape w) (consumed + position w).

Definition with_rem_quiz_ques (w : world) (pool : list Z) (consumed : nat)
  : world :=
  World (Attributes (Some pool) (rem_tips (session w)) (state (session w)))
        (tape w) (consumed + position w).

(** A pick over a catalog of [size] items, whose pool is read by [pool_of]:
    it returns an index of the serving pool and stores the rest of it; and
    one pick more than the pool holds serves first every index of the pool
    once, then an index of the full range, which repeats one of them when the
    pool was full. *)
Definition serves_without_replacement
    (pick : M Z) (pool_of : world -> option (list Z)) (size : Z) : Prop :=
  forall w pool,
    pool_of w = Some pool ->
    (exists (i : Z) (pool' : list Z) (w' : world),
        pick w = (Ok i, w') /\ pool_of w' = Some pool' /\
        serving_pool size pool ≡ₚ i :: pool') /\
    (exists (first : list Z) (last : Z) (w' : world),
        draw pick (S (length pool)) w = (Ok (first ++ [last]), w') /\
        first ≡ₚ pool /\ last ∈ range size /\
        (pool ≡ₚ range size -> last ∈ first)).

(** A pool over a catalog of [size] items holds distinct indices of the
    catalog. *)
Definition pool_ok (size : Z) (pool : list Z) : Prop :=
  NoDup pool /\ forall i, i ∈ pool -> 0 <= i < size.

(** The position of the serving pool that the raw draw [raw] selects. *)
Definition pick_position (pool : list Z) (raw : nat) : nat :=
  Z.to_nat (Z.of_nat raw mod len pool).

(** [n] consecutive runs of a handler, with what they return in order. *)
Fixpoint collect {A} (c : M A) (n : nat) : M (list A) :=
  match n with
  | O => ret []
  | S n' =>
      a <- c ;;
      rest <- collect c n' ;;
      ret (a :: rest)
  end.

(** The reply of [get_new_tip] for the tip [tip]. *)
Definition tip_reply (render_template : template -> string) (tip : string)
  : response :=
  Question (tip +:+ ". " +:+ "Would you like another fact or the quiz?")
           "Would you like another fact or the quiz?"
           (Some (render_template card_title, tip)).

(** The number of answers that [init_quiz_state] expects for a question of
    a known type. *)
Definition expected_responses (q : quiz_question) : Z :=
  if decide (type q = "single_part") then 1 else len (answers q).

(** A question whose type [init_quiz_state] knows. *)
Definition known_type (q : quiz_question) : Prop :=
  type q = "single_part" \/ type q = "multi_part".

(** The dict that maps every string of [l] to itself. *)
Definition identity_dict (l : list string) : gmap string string :=
  list_to_map ((fun s => (s, s)) <$> l).

(** ** A sample catalog, templates and session *)

Module Sample.

Definition quiz : list quiz_question :=
  [ QuizQuestion "What is the first duty of a leader?" "single_part"
                 [Answer "listen"; Answer "hear"];
    QuizQuestion "Name two fruits of good leadership." "multi_part"
                 [Answer "apple"; Answer "apply"];
    QuizQuestion "Describe your leadership style." "essay" [] ].

Definition tips : list string :=
  ["Listen before you speak"; "Praise in public"; "Lead by example"].

Definition render (t : template) : string :=
  match t with
  | need_one_more_answer => "I need one more answer."
  | need_more_answers n => "I need " +:+ pretty n +:+ " more answers."
  | incorrect_answer w c =>
      "Sorry, " +:+ w +:+ " is not correct. The answer is " +:+ c +:+ "."
  | incorrect_answers ws cs =>
      "Sorry, " +:+ ws +:+ " are not correct. You got " +:+ cs +:+ "."
  | continue => "Would you like a tip or another question?"
  | card_title => "Great Leader"
  end.

Definition limit : nat := 1000.

(** An iteration order for the sample runs: the keys as the set of keys
    lists them. *)
Definition iteration (d : gmap string string) : list string :=
  elements (dom d).

(** A session before [launch], and a source of raw draws. *)
Definition fresh : world :=
  World (Attributes None None None) (fun k => (7 * k + 3)%nat) 0.

(** The session while question [i] of [quiz] with [n] expected answers has
    collected [r]. *)
Definition asking (i : Z) (t : string) (n : Z) (r : list string) : world :=
  with_state fresh (QuizContext i t n r).

(** The catalog without the entry of unknown type. *)
Definition typed_quiz : list quiz_question := take 2 quiz.

(** The session after [launch]. *)
Definition launched : world := snd (launch quiz tips fresh).

End Sample.

(** * Properties *)

(** ** Joining items for speech *)

Lemma append_assoc (a b c : string) : (a +:+ b) +:+ c = a +:+ (b +:+ c).
Proof.
  induction a as [|ch a IH]; [reflexivity |].
  change (String ch ((a +:+ b) +:+ c) = String ch (a +:+ b +:+ c)).
  now rewrite IH.
Qed.

Lemma concatenate_loop_front (front : list string) :
  forall (n i : Z) (y z acc : string),
    n = i + len front + 2 ->
    concatenate_loop n i (front ++ [y; z]) acc
    = acc +:+ comma_separated front +:+ y +:+ ", and " +:+ z.
Proof.
  unfold len. induction front as [|x front IH]; intros n i y z acc Hn.
  - cbn [app concatenate_loop comma_separated foldr length] in *.
    replace (i <? n - 2) with false by lia.
    replace (i =? n - 2) with true by lia.
    replace (i + 1 <? n - 2) with false by lia.
    replace (i + 1 =? n - 2) with false by lia.
    now rewrite !append_assoc.
  - cbn [app concatenate_loop comma_separated foldr length] in *.
    replace (i <? n - 2) with true by lia.
    rewrite (IH n (i + 1) y z) by lia.
    now rewrite !append_assoc.
Qed.

(** C9: one item is returned verbatim, two items give "A, and B", and a list
    of three or more is joined with ", " after every item but the last two and
    ", and " before the final item; ["x"; "y"; "z"] gives "x, y, and z". *)
Theorem concatenate_text_items_natural :
  (forall a, concatenate_text_items [a] = a) /\
  (forall a b, concatenate_text_items [a; b] = a +:+ ", and " +:+ b) /\
  (forall front y z,
      concatenate_text_items (front ++ [y; z])
      = comma_separated front +:+ y +:+ ", and " +:+ z) /\
  concatenate_text_items ["x"; "y"; "z"] = "x, y, and z".
Proof.
  assert (Hgen : forall front y z,
             concatenate_text_items (front ++ [y; z])
             = comma_separated front +:+ y +:+ ", and " +:+ z).
  { intros front y z. unfold concatenate_text_items.
    rewrite (concatenate_loop_front front _ 0 y z "").
    - reflexivity.
    - unfold len. rewrite length_app. cbn [length]. lia. }
  split; [| split; [| split]].
  - intros a. unfold concatenate_text_items. cbn. reflexivity.
  - intros a b. apply (Hgen [] a b).
  - exact Hgen.
  - reflexivity.
Qed.

(** ** The similarity score on examples *)

Example ratio_identical : (Difflib.ratio "a" "a" == 1)%Q.
Proof. vm_compute. reflexivity. Qed.

Example ratio_apple_apply : (Difflib.ratio "apply" "apple" == 8 # 10)%Q.
Proof. vm_compute. reflexivity. Qed.

Example ratio_transposed : (Difflib.ratio "the answer" "teh answer" == 9 # 10)%Q.
Proof. vm_compute. reflexivity. Qed.

Example ratio_abcd_bcde : (Difflib.ratio "abcd" "bcde" == 3 # 4)%Q.
Proof. vm_compute. reflexivity. Qed.

(** ** Ranking of close matches *)

Section CloseMatchesFacts.

Variable ratio : string -> string -> Q.

Lemma pair_leb_true p q : pair_leb q p = true -> score_ge p q.
Proof.
  unfold pair_leb, score_ge. destruct (q.1 ?= p.1)%Q eqn:E; intros H.
  - apply Qeq_alt in E. rewrite E. apply Qle_refl.
  - apply Qlt_alt in E. now apply Qlt_le_weak.
  - discriminate.
Qed.

Lemma pair_leb_false p q : pair_leb q p = false -> score_ge q p.
Proof.
  unfold pair_leb, score_ge. destruct (q.1 ?= p.1)%Q eqn:E; intros H.
  - apply Qeq_alt in E. rewrite E. apply Qle_refl.
  - discriminate.
  - apply Qgt_alt in E. now apply Qlt_le_weak.
Qed.

Lemma insert_desc_perm p l : insert_desc p l ≡ₚ p :: l.
Proof.
  induction l as [|q l IH]; cbn; [reflexivity |].
  destruct (pair_leb q p); [reflexivity |].
  rewrite IH. apply Permutation_swap.
Qed.

Lemma sort_desc_perm l : sort_desc l ≡ₚ l.
Proof.
  induction l as [|p l IH]; cbn; [reflexivity |].
  rewrite insert_desc_perm. now rewrite IH.
Qed.

Lemma insert_desc_sorted p l :
  StronglySorted score_ge l -> StronglySorted score_ge (insert_desc p l).
Proof.
  induction 1 as [|q l Hs IH Hq]; cbn.
  - repeat constructor.
  - destruct (pair_leb q p) eqn:E.
    + constructor; [now constructor |].
      apply pair_leb_true in E. constructor; [exact E |].
      eapply Forall_impl; [exact Hq |]. intros r Hr.
      unfold score_ge in *. eapply Qle_trans; eassumption.
    + constructor; [exact IH |].
      rewrite insert_desc_perm. constructor; [| exact Hq].
      now apply pair_leb_false.
Qed.

Lemma sort_desc_sorted l : StronglySorted score_ge (sort_desc l).
Proof.
  induction l as [|p l IH]; cbn; [constructor |].
  now apply insert_desc_sorted.
Qed.

Lemma sort_desc_head p tl l :
  sort_desc l = p :: tl -> p ∈ l /\ forall q, q ∈ l -> score_ge p q.
Proof.
  intros E. pose proof (sort_desc_sorted l) as Hs.
  pose proof (sort_desc_perm l) as Hp. rewrite E in Hs, Hp.
  split.
  - rewrite <- Hp. apply list_elem_of_here.
  - intros q Hq. rewrite <- Hp in Hq.
    apply StronglySorted_inv in Hs as [_ Hall].
    apply elem_of_cons in Hq as [-> | Hq].
    + unfold score_ge. apply Qle_refl.
    + rewrite Forall_forall in Hall. now apply Hall.
Qed.

Lemma elem_of_scored word possibilities s x :
  (s, x) ∈ scored ratio word possibilities <->
  x ∈ possibilities /\ s = ratio x word /\ (cutoff <= ratio x word)%Q.
Proof.
  induction possibilities as [|y rest IH]; cbn.
  - split; [intros H | intros [H _]]; now apply elem_of_nil in H.
  - destruct (Qle_bool cutoff (ratio y word)) eqn:E.
    + rewrite elem_of_cons, IH, elem_of_cons. apply Qle_bool_iff in E.
      split.
      * intros [H | (? & ? & ?)]; [inversion H; subst |]; auto.
      * intros ([-> | ?] & -> & ?); auto.
    + rewrite IH, elem_of_cons. split; [intros (? & ? & ?); auto |].
      intros ([-> | ?] & -> & Hc); auto.
      apply Qle_bool_iff in Hc. congruence.
Qed.

(** No match is reported exactly when no candidate reaches the cutoff. *)
Lemma get_close_matches_nil word possibilities :
  get_close_matches ratio word possibilities = [] <->
  forall c, c ∈ possibilities -> ~ (cutoff <= ratio c word)%Q.
Proof.
  unfold get_close_matches, nlargest. split.
  - intros E c Hc Hr.
    assert (Hin : (ratio c word, c) ∈ scored ratio word possibilities)
      by now apply elem_of_scored.
    rewrite <- sort_desc_perm in Hin.
    destruct (sort_desc (scored ratio word possibilities)); [| discriminate].
    now apply elem_of_nil in Hin.
  - intros H.
    destruct (sort_desc (scored ratio word possibilities)) as [|[s x] tl] eqn:E;
      [reflexivity |].
    apply sort_desc_head in E as [Hin _].
    apply elem_of_scored in Hin as (Hx & _ & Hr). now apply H in Hx.
Qed.

(** The first reported match is a candidate of the list, reaches the
    cutoff, and no candidate scores higher. *)
Lemma get_close_matches_head word possibilities m rest :
  get_close_matches ratio word possibilities = m :: rest ->
  m ∈ possibilities /\ (cutoff <= ratio m word)%Q /\
  forall c, c ∈ possibilities -> (ratio c word <= ratio m word)%Q.
Proof.
  unfold get_close_matches, nlargest. intros E.
  destruct (sort_desc (scored ratio word possibilities)) as [|[s x] tl] eqn:Es;
    [discriminate |].
  cbn in E. injection E as -> _.
  apply sort_desc_head in Es as [Hin Hmax].
  apply elem_of_scored in Hin as (Hx & -> & Hr).
  split; [exact Hx |]. split; [exact Hr |].
  intros c Hc. destruct (Qlt_le_dec (ratio c word) cutoff) as [Hlt | Hge].
  - apply Qlt_le_weak. eapply Qlt_le_trans; eassumption.
  - apply (Hmax (ratio c word, c)). now apply elem_of_scored.
Qed.

End CloseMatchesFacts.

(** ** The grading loop *)

Lemma remove_elem_of (x : string) (l : list string) :
  x ∈ l -> exists l', remove x l = Ok l' /\ l ≡ₚ x :: l'.
Proof.
  induction l as [|y l IH]; intros Hin.
  - now apply elem_of_nil in Hin.
  - cbn. destruct (decide (y = x)) as [-> | Hne].
    + now exists l.
    + apply elem_of_cons in Hin as [-> | Hin]; [congruence |].
      destruct (IH Hin) as (l' & -> & Hp). exists (y :: l'). split; [reflexivity |].
      rewrite Hp. apply Permutation_swap.
Qed.

Section GraderFacts.

Variable ratio : string -> string -> Q.

(** One turn of the loop when some known answer reaches the cutoff. *)
Lemma check_loop_match resp rest ac c inc (known : list string) :
  (exists x, x ∈ known /\ (cutoff <= ratio x resp)%Q) ->
  exists m known',
    m ∈ known /\ (cutoff <= ratio m resp)%Q /\
    (forall x, x ∈ known -> (ratio x resp <= ratio m resp)%Q) /\
    remove m known = Ok known' /\ known ≡ₚ m :: known' /\
    check_loop ratio (resp :: rest) ac c inc known
    = check_loop ratio rest ac (<[resp := m]> c) inc known'.
Proof.
  intros (x & Hx & Hr).
  destruct (get_close_matches ratio resp known) as [|m tl] eqn:E.
  - exfalso. eapply get_close_matches_nil; eassumption.
  - destruct (get_close_matches_head ratio _ _ _ _ E) as (Hm & Hc & Hbest).
    destruct (remove_elem_of m known Hm) as (known' & Hrem & Hp).
    exists m, known'. repeat (split; [assumption |]).
    cbn. now rewrite E, Hrem.
Qed.

(** One turn of the loop when no known answer reaches the cutoff. *)
Lemma check_loop_miss resp rest ac c inc (known : list string) :
  (forall x, x ∈ known -> ~ (cutoff <= ratio x resp)%Q) ->
  check_loop ratio (resp :: rest) ac c inc known
  = check_loop ratio rest false c (inc ++ [resp]) known.
Proof.
  intros H. apply get_close_matches_nil in H. cbn. now rewrite H.
Qed.

Lemma reaches_cutoff_dec resp (known : list string) :
  (exists x, x ∈ known /\ (cutoff <= ratio x resp)%Q) \/
  (forall x, x ∈ known -> ~ (cutoff <= ratio x resp)%Q).
Proof.
  destruct (get_close_matches ratio resp known) as [|m tl] eqn:E.
  - right. now apply get_close_matches_nil.
  - left. destruct (get_close_matches_head ratio _ _ _ _ E) as (Hm & Hc & _).
    now exists m.
Qed.

(** A property of the loop variables and of the responses handled so far
    that both kinds of turn preserve holds when the loop ends, and the loop
    does end without raising. *)
Lemma check_loop_invariant
    (P : list string -> bool -> gmap string string -> list string ->
         list string -> Prop) :
  (forall handled resp ac c inc known m known',
      P handled ac c inc known ->
      m ∈ known -> known ≡ₚ m :: known' ->
      P (handled ++ [resp]) ac (<[resp := m]> c) inc known') ->
  (forall handled resp ac c inc known,
      P handled ac c inc known ->
      P (handled ++ [resp]) false c (inc ++ [resp]) known) ->
  forall response handled ac c inc known,
    P handled ac c inc known ->
    exists ac' c' inc' known',
      check_loop ratio response ac c inc known = Ok (ac', c', inc', known') /\
      P (handled ++ response) ac' c' inc' known'.
Proof.
  intros Hmatch Hmiss responses.
  induction responses as [|resp rest IH]; intros handled ac c inc known HP.
  - exists ac, c, inc, known. rewrite app_nil_r. now split.
  - replace (handled ++ resp :: rest) with ((handled ++ [resp]) ++ rest)
      by now rewrite <- app_assoc.
    destruct (reaches_cutoff_dec resp known) as [Hsome | Hnone].
    + destruct (check_loop_match resp rest ac c inc known Hsome)
        as (m & known' & Hm & _ & _ & _ & Hp & ->).
      apply (IH (handled ++ [resp]) ac (<[resp := m]> c) inc known').
      now apply (Hmatch handled resp ac c inc known m known').
    + rewrite (check_loop_miss resp rest ac c inc known Hnone).
      apply (IH (handled ++ [resp]) false c (inc ++ [resp]) known).
      now apply (Hmiss handled resp ac).
Qed.

(** [all_correct] records whether a response was rejected; every response
    either consumes one known answer or is rejected. *)
Lemma check_loop_counts response (known : list string) :
  exists ac c inc known',
    check_loop ratio response true ∅ [] known = Ok (ac, c, inc, known') /\
    (ac = true <-> inc = []) /\
    (length inc + length known = length response + length known')%nat.
Proof.
  destruct (check_loop_invariant
              (fun handled ac c inc known' =>
                 (ac = true <-> inc = []) /\
                 (length inc + length known
                  = length handled + length known')%nat))
    with (response := response) (handled := @nil string) (ac := true)
         (c := (∅ : gmap string string)) (inc := @nil string) (known := known)
    as (ac & c & inc & known' & E & HP).
  - intros handled resp ac c inc kn m kn' [Hac Hlen] _ Hp. split; [exact Hac |].
    apply Permutation_length in Hp. rewrite length_app. cbn in *. lia.
  - intros handled resp ac c inc kn [Hac Hlen]. split.
    + split; [discriminate |]. intros H. now apply app_eq_nil in H as [_ ?].
    + rewrite !length_app. cbn. lia.
  - split; [tauto | cbn; lia].
  - exists ac, c, inc, known'. now rewrite app_nil_l in HP.
Qed.

(** What the assignment [correct[k] = v] does to the values of the dict:
    the new value comes in, and the value that the key had, if it had one,
    is lost. *)
Lemma dict_values_insert (c : gmap string string) (k v : string) :
  exists kept,
    dict_values (<[k := v]> c) ≡ₚ v :: kept /\
    kept ⊆+ dict_values c /\
    (c !! k = None -> kept = dict_values c).
Proof.
  unfold dict_values. destruct (c !! k) as [x |] eqn:E.
  - exists (map_to_list (delete k c)).*2. split; [| split].
    + rewrite <- (insert_delete_eq c k v).
      rewrite (map_to_list_insert (delete k c) k v) by apply lookup_delete_eq.
      reflexivity.
    + rewrite <- (map_to_list_delete c k x E). cbn.
      apply submseteq_cons. reflexivity.
    + discriminate.
  - exists (map_to_list c).*2. split; [| split].
    + now rewrite (map_to_list_insert c k v E).
    + reflexivity.
    + reflexivity.
Qed.

(** The known answers split into the answers consumed, one for each matched
    response, and the answers left over.  The values of [correct] are among
    the consumed answers, and they are all of them when the responses are
    pairwise distinct, since then no entry of [correct] is overwritten. *)
Lemma check_loop_accounts response (known : list string) :
  exists ac c inc known' consumed,
    check_loop ratio response true ∅ [] known = Ok (ac, c, inc, known') /\
    consumed ++ known' ≡ₚ known /\
    (length consumed + length inc = length response)%nat /\
    dict_values c ⊆+ consumed /\
    (NoDup response -> dict_values c ≡ₚ consumed).
Proof.
  destruct (check_loop_invariant
              (fun handled ac c inc known' =>
                 exists consumed,
                   consumed ++ known' ≡ₚ known /\
                   (length consumed + length inc = length handled)%nat /\
                   dict_values c ⊆+ consumed /\
                   (forall k, is_Some (c !! k) -> k ∈ handled) /\
                   (NoDup handled -> dict_values c ≡ₚ consumed)))
    with (response := response) (handled := @nil string) (ac := true)
         (c := (∅ : gmap string string)) (inc := @nil string) (known := known)
    as (ac & c & inc & known' & E & consumed & HP).
  - intros handled resp ac c inc kn m kn'
           (consumed & Hacc & Hlen & Hsub & Hdom & Hall) _ Hp.
    destruct (dict_values_insert c resp m) as (kept & Hins & Hkept & Hfresh).
    exists (m :: consumed). split; [| split; [| split; [| split]]].
    + cbn. rewrite <- Hacc, Hp. now rewrite Permutation_middle.
    + rewrite length_app. cbn. lia.
    + rewrite Hins. apply submseteq_skip. now transitivity (dict_values c).
    + intros k. rewrite lookup_insert_is_Some, elem_of_app, list_elem_of_singleton.
      intros [-> | [_ Hk]]; auto.
    + intros Hnd. apply NoDup_app in Hnd as (Hh & Hnew & _).
      assert (Hnone : c !! resp = None).
      { destruct (c !! resp) eqn:El; [| reflexivity].
        exfalso. apply (Hnew resp); [| apply list_elem_of_here].
        apply Hdom. now rewrite El. }
      rewrite Hins, (Hfresh Hnone). now rewrite (Hall Hh).
  - intros handled resp ac c inc kn
           (consumed & Hacc & Hlen & Hsub & Hdom & Hall).
    exists consumed. split; [exact Hacc |]. split; [| split; [exact Hsub | split]].
    + rewrite !length_app. cbn. lia.
    + intros k Hk. apply elem_of_app. left. now apply Hdom.
    + intros Hnd. apply NoDup_app in Hnd as (Hh & _ & _). now apply Hall.
  - exists []. split; [reflexivity |]. split; [reflexivity |].
    unfold dict_values. rewrite map_to_list_empty. split; [reflexivity |].
    split; [| reflexivity].
    intros k [v Hv]. now rewrite lookup_empty in Hv.
  - destruct HP as (Hacc & Hlen & Hsub & _ & Hall).
    exists ac, c, inc, known', consumed. rewrite app_nil_l in Hlen, Hall.
    now repeat split.
Qed.

End GraderFacts.

(** [grade] from the outcome of its loop; the entries of
    [graded['missing']] are the answers left over, [None] standing for no
    entry. *)
Lemma grade_unfold ratio response (known : list string) ac c inc known' :
  check_loop ratio response true ∅ [] known = Ok (ac, c, inc, known') ->
  grade ratio response known
  = Ok (ac, Graded c inc (if 0 <? len known' then Some known' else None)) /\
  default [] (if 0 <? len known' then Some known' else None) = known'.
Proof.
  intros E. unfold grade. rewrite E. split; [reflexivity |].
  destruct known'; reflexivity.
Qed.

(** C1, as the code has it: [grade] always returns, and its [all_correct]
    flag tells exactly whether [incorrect] is empty, whatever is missing.
    When as many answers were submitted as the question has, this is the same
    as [incorrect] empty and nothing missing.  In particular
    grade([], ["a", "b"]) has missing = ["a", "b"] and all_correct = True. *)
Theorem grade_all_correct :
  forall ratio response (known : list string),
    (exists ac g,
        grade ratio response known = Ok (ac, g) /\
        (ac = true <-> incorrect g = []) /\
        (length response = length known ->
         (ac = true <-> incorrect g = [] /\ missing g = None))) /\
    grade ratio [] ["a"; "b"] = Ok (true, Graded ∅ [] (Some ["a"; "b"])).
Proof.
  intros ratio response known. split; [| reflexivity].
  destruct (check_loop_counts ratio response known)
    as (ac & c & inc & known' & E & Hac & Hlen).
  destruct (grade_unfold _ _ _ _ _ _ _ E) as [-> _].
  eexists _, _. split; [reflexivity |]. cbn. split; [exact Hac |].
  intros Hsame. rewrite Hac. split.
  - intros ->. split; [reflexivity |].
    destruct known'; [reflexivity | cbn in Hlen; lia].
  - tauto.
Qed.

(** C1 as stated fails: with nothing submitted, [all_correct] stays [True]
    although both known answers are missing. *)
Lemma grade_all_correct_ignores_missing :
  grade Difflib.ratio [] ["a"; "b"] = Ok (true, Graded ∅ [] (Some ["a"; "b"])) /\
  ~ (forall response known ac g,
        grade Difflib.ratio response known = Ok (ac, g) ->
        (ac = true <-> incorrect g = [] /\ missing g = None)).
Proof.
  split; [reflexivity |]. intros H.
  specialize (H [] ["a"; "b"] true (Graded ∅ [] (Some ["a"; "b"])) eq_refl).
  destruct H as [H _]. destruct (H eq_refl) as [_ Hm]. discriminate Hm.
Qed.


(** C10 as stated fails: a response given twice overwrites its entry of
    [correct], so the answer matched first is neither a value of [correct]
    nor missing. *)
Lemma grade_repeated_response_loses_match :
  grade Difflib.ratio ["apple"; "apple"] ["apple"; "apples"]
  = Ok (true, Graded {["apple" := "apples"]} [] None) /\
  ~ (dict_values {["apple" := "apples"]} ++ [] ≡ₚ ["apple"; "apples"]).
Proof.
  split; [vm_compute; reflexivity |].
  intros H. apply Permutation_length in H. vm_compute in H. discriminate H.
Qed.

(** C10, as the code has it: for every call to [grade] the known answers
    split into the answers consumed, one for each matched response, and the
    entries of [missing], so each known answer is consumed at most once and
    the unconsumed ones are precisely the missing ones.  The values of
    [correct] are among the consumed answers, none counted more often than
    it was consumed: they are known answers, and together with the entries
    of [missing] they are pairwise distinct when the known answers are.
    When the submitted answers are pairwise distinct, the values are all the
    consumed answers, and with the entries of [missing] they account for
    exactly the known answers. *)
Theorem grade_accounts_for_known :
  forall ratio response (known : list string),
    exists ac g consumed,
      grade ratio response known = Ok (ac, g) /\
      consumed ++ default [] (missing g) ≡ₚ known /\
      (length consumed + length (incorrect g) = length response)%nat /\
      dict_values (correct g) ⊆+ consumed /\
      dict_values (correct g) ++ default [] (missing g) ⊆+ known /\
      (forall v, v ∈ dict_values (correct g) -> v ∈ known) /\
      (NoDup known ->
       NoDup (dict_values (correct g) ++ default [] (missing g))) /\
      (NoDup response ->
       dict_values (correct g) ++ default [] (missing g) ≡ₚ known).
Proof.
  intros ratio response known.
  destruct (check_loop_accounts ratio response known)
    as (ac & c & inc & known' & consumed & E & Hp & Hlen & Hsub & Hall).
  destruct (grade_unfold _ _ _ _ _ _ _ E) as [-> Hmiss].
  exists ac, (Graded c inc (if 0 <? len known' then Some known' else None)),
    consumed.
  split; [reflexivity |]. cbn [correct missing incorrect]. rewrite Hmiss.
  assert (Hboth : dict_values c ++ known' ⊆+ known).
  { rewrite <- Hp. now apply submseteq_skips_r. }
  split; [exact Hp |]. split; [exact Hlen |]. split; [exact Hsub |].
  split; [exact Hboth |]. split; [| split].
  - intros v Hv.
    apply (elem_of_submseteq (dict_values c ++ known')); [| exact Hboth].
    apply elem_of_app. now left.
  - intros Hk. apply submseteq_Permutation in Hboth as [k Hperm].
    rewrite Hperm in Hk. now apply NoDup_app in Hk as [? _].
  - intros Hnd. now rewrite (Hall Hnd).
Qed.

Example grade_repeated_response_accounting :
  grade Difflib.ratio ["apple"; "apple"; "pear"] ["apple"; "apples"; "plum"]
  = Ok (false, Graded {["apple" := "apples"]} ["pear"] (Some ["plum"])).
Proof. vm_compute. reflexivity. Qed.

(** ** The quiz state machine *)

Lemma with_state_same (w : world) (st : state_dict) :
  state (session w) = Some st -> with_state w st = w.
Proof. destruct w as [[rq rt s] tp ps]. cbn. now intros ->. Qed.

Section SkillFacts.

Variable ratio : string -> string -> Q.
Variable leadership_quiz : list quiz_question.
Variable leadership_tips : list string.
Variable render_template : template -> string.
Variable dict_iter : gmap string string -> list string.

Lemma responses_extend_quiz (w : world) i t n (r new : list string) :
  state (session w) = Some (QuizContext i t n r) ->
  responses_extend new w = (Ok tt, with_state w (QuizContext i t n (r ++ new))).
Proof.
  intros H. unfold responses_extend, bind, get_attr. rewrite H. reflexivity.
Qed.

Lemma prompt_user_for_more_answers_quiz (w : world) i t n (r : list string) :
  state (session w) = Some (QuizContext i t n r) ->
  prompt_user_for_more_answers render_template w
  = (if n - len r =? 1 then
       Ok (question (render_template need_one_more_answer)
                    (render_template need_one_more_answer))
     else if n - len r >? 1 then
       Ok (question (render_template (need_more_answers (n - len r)))
                    (render_template (need_more_answers (n - len r))))
     else Raise (UnboundLocalError "speech"), w).
Proof.
  intros H. unfold prompt_user_for_more_answers, bind, get_attr, lift.
  rewrite H. cbn [state_n_responses state_responses].
  destruct (n - len r =? 1); [reflexivity |].
  destruct (n - len r >? 1); reflexivity.
Qed.

(** After the new answers are appended, the handler grades when the count
    of collected answers equals [n_responses] and prompts otherwise. *)
Lemma manage_quiz_state_quiz (w : world) i t n (r new : list string) :
  state (session w) = Some (QuizContext i t n r) ->
  manage_quiz_state ratio leadership_quiz render_template dict_iter new w
  = (if len (r ++ new) =? n then
       speech_output <- process_answers ratio leadership_quiz render_template dict_iter ;;
       ret (question (speech_output +:+ " " +:+ render_template continue)
                     (speech_output +:+ " " +:+ render_template continue))
     else prompt_user_for_more_answers render_template)
      (with_state w (QuizContext i t n (r ++ new))).
Proof.
  intros H. unfold manage_quiz_state.
  unfold bind at 1. rewrite (responses_extend_quiz w i t n r new H).
  unfold bind at 1. unfold get_attr at 1. cbn [with_state session state].
  unfold bind at 1. unfold lift at 1. cbn [state_responses].
  unfold bind at 1. unfold lift at 1. cbn [state_n_responses].
  reflexivity.
Qed.

(** [init_quiz_state] on an entry of the catalog. *)
Lemma init_quiz_state_entry (w : world) (i_quiz : Z) (q : quiz_question) :
  getitem leadership_quiz i_quiz = Ok q ->
  init_quiz_state leadership_quiz i_quiz w
  = if decide (type q = "single_part")
    then (Ok tt, with_state w (QuizContext i_quiz (type q) 1 []))
    else if decide (type q = "multi_part")
    then (Ok tt, with_state w (QuizContext i_quiz (type q) (len (answers q)) []))
    else (Raise (ValueError "Unknown question type"), w).
Proof.
  intros H. unfold init_quiz_state, bind, lift. rewrite H.
  destruct (decide (type q = "single_part")); [reflexivity |].
  destruct (decide (type q = "multi_part")); reflexivity.
Qed.

(** C5: [init_quiz_state] on question [i_quiz] of the catalog expects one
    answer when the question is single_part and as many as the question has
    answers when it is multi_part, starts with no collected answer and makes
    the quiz question the active state; for every other type it raises
    ValueError("Unknown question type") and leaves the session as it was. *)
Theorem init_quiz_state_expected_count
    (w : world) (i_quiz : Z) (q : quiz_question) :
  getitem leadership_quiz i_quiz = Ok q ->
  (type q = "single_part" ->
   init_quiz_state leadership_quiz i_quiz w
   = (Ok tt, with_state w (QuizContext i_quiz "single_part" 1 []))) /\
  (type q = "multi_part" ->
   init_quiz_state leadership_quiz i_quiz w
   = (Ok tt, with_state w (QuizContext i_quiz "multi_part"
                                       (len (answers q)) []))) /\
  (type q <> "single_part" -> type q <> "multi_part" ->
   init_quiz_state leadership_quiz i_quiz w
   = (Raise (ValueError "Unknown question type"), w)).
Proof.
  intros H. rewrite (init_quiz_state_entry w i_quiz q H).
  split; [| split].
  - intros E. rewrite E. reflexivity.
  - intros E. rewrite E. reflexivity.
  - intros N1 N2.
    destruct (decide (type q = "single_part")); [contradiction |].
    destruct (decide (type q = "multi_part")); [contradiction | reflexivity].
Qed.

(** C8: with answers still missing, submitting no answer raises nothing and
    leaves the session as it was; the reply is the need_one_more_answer
    prompt when one answer is missing and the need_more_answers prompt, with
    the number missing, when more are. *)
Theorem empty_submission_prompts (w : world) i t n (r : list string) :
  state (session w) = Some (QuizContext i t n r) ->
  (n - len r = 1 ->
   manage_quiz_state ratio leadership_quiz render_template dict_iter [] w
   = (Ok (question (render_template need_one_more_answer)
                   (render_template need_one_more_answer)), w)) /\
  (n - len r > 1 ->
   manage_quiz_state ratio leadership_quiz render_template dict_iter [] w
   = (Ok (question (render_template (need_more_answers (n - len r)))
                   (render_template (need_more_answers (n - len r)))), w)).
Proof.
  intros H. rewrite (manage_quiz_state_quiz w i t n r [] H).
  rewrite app_nil_r, (with_state_same w _ H).
  split; intros Hm.
  - replace (len r =? n) with false by lia.
    rewrite (prompt_user_for_more_answers_quiz w i t n r H).
    replace (n - len r =? 1) with true by lia. reflexivity.
  - replace (len r =? n) with false by lia.
    rewrite (prompt_user_for_more_answers_quiz w i t n r H).
    replace (n - len r =? 1) with false by lia.
    replace (n - len r >? 1) with true by lia. reflexivity.
Qed.

(** X20: appending more answers than are still expected ends in the
    unbound [speech] of [prompt_user_for_more_answers]: the call raises
    [UnboundLocalError] and the answers stay stored. *)
Lemma manage_quiz_state_overshoot (w : world) i t n (r new : list string) :
  state (session w) = Some (QuizContext i t n r) ->
  n < len (r ++ new) ->
  manage_quiz_state ratio leadership_quiz render_template dict_iter new w
  = (Raise (UnboundLocalError "speech"),
     with_state w (QuizContext i t n (r ++ new))).
Proof.
  intros H Hover. rewrite (manage_quiz_state_quiz w i t n r new H).
  replace (len (r ++ new) =? n) with false by lia.
  rewrite (prompt_user_for_more_answers_quiz _ i t n (r ++ new))
    by reflexivity.
  replace (n - len (r ++ new) =? 1) with false by lia.
  replace (n - len (r ++ new) >? 1) with false by lia. reflexivity.
Qed.

(** Grading reads the session and leaves it as it is. *)
Lemma check_answers_world (w : world) :
  snd (check_answers ratio leadership_quiz w) = w.
Proof.
  unfold check_answers, bind, get_attr, lift.
  destruct (state (session w)) as [st |]; [| reflexivity].
  destruct (state_responses st); [| reflexivity].
  destruct (state_index st); [| reflexivity].
  destruct (getitem leadership_quiz _); reflexivity.
Qed.

Lemma process_answers_world (w : world) :
  snd (process_answers ratio leadership_quiz render_template dict_iter w) = w.
Proof.
  unfold process_answers, bind.
  pose proof (check_answers_world w) as Hw.
  destruct (check_answers ratio leadership_quiz w) as [[[ac g] | e] w'];
    cbn in Hw; subst w'; [| reflexivity].
  destruct ac; [reflexivity |].
  destruct (len (incorrect g) =? 1); [| reflexivity].
  unfold lift, raise, ret.
  destruct (getitem (incorrect g) 0); [| reflexivity].
  destruct (missing g) as [l |]; [| reflexivity].
  destruct (getitem l 0); reflexivity.
Qed.

(** X21: a call of [manage_quiz_state] that returns a reply has stored
    the new answers after the collected ones and leaves no more answers
    collected than are expected: only a call that raises can leave more. *)
Lemma manage_quiz_state_reply_keeps_bound
    (w w' : world) i t n (r new : list string) (reply : response) :
  state (session w) = Some (QuizContext i t n r) ->
  manage_quiz_state ratio leadership_quiz render_template dict_iter new w
  = (Ok reply, w') ->
  state (session w') = Some (QuizContext i t n (r ++ new)) /\
  len (r ++ new) <= n.
Proof.
  intros H E. rewrite (manage_quiz_state_quiz w i t n r new H) in E.
  destruct (len (r ++ new) =? n) eqn:Hn.
  - split; [| lia]. unfold bind in E.
    pose proof (process_answers_world
                  (with_state w (QuizContext i t n (r ++ new)))) as Hw.
    destruct (process_answers ratio leadership_quiz render_template dict_iter _)
      as [[s | e] w1]; [| discriminate E].
    cbn in Hw. subst w1. unfold ret in E. injection E as _ <-. reflexivity.
  - rewrite (prompt_user_for_more_answers_quiz _ i t n (r ++ new)) in E
      by reflexivity.
    destruct (n - len (r ++ new) =? 1) eqn:H1.
    + injection E as _ <-. split; [reflexivity | lia].
    + destruct (n - len (r ++ new) >? 1) eqn:H2; [| discriminate E].
      injection E as _ <-. split; [reflexivity | lia].
Qed.

End SkillFacts.

(** ** The selector *)

Lemma len_range (n : Z) : 0 <= n -> len (range n) = n.
Proof.
  intros H. unfold len, range. rewrite length_fmap, length_seq. lia.
Qed.

Lemma pop_in_range {A} (l : list A) (i : Z) :
  0 <= i < len l ->
  exists x, l !! Z.to_nat i = Some x /\ pop l i = Ok (x, delete (Z.to_nat i) l).
Proof.
  intros Hi. unfold pop.
  replace (i <? 0) with false by lia.
  replace ((i <? 0) || (len l <=? i)) with false by lia.
  destruct (lookup_lt_is_Some_2 l (Z.to_nat i)) as [x Hx].
  - unfold len in Hi. lia.
  - exists x. now rewrite Hx.
Qed.

Lemma serving_pool_nonempty (size : Z) (pool : list Z) :
  pool <> [] -> serving_pool size pool = pool.
Proof.
  intros H. unfold serving_pool, len.
  destruct pool; [contradiction | reflexivity].
Qed.

Lemma draw_snoc (pick : M Z) (n : nat) (w : world) :
  draw pick (S n) w
  = match draw pick n w with
    | (Ok served, w') =>
        match pick w' with
        | (Ok i, w'') => (Ok (served ++ [i]), w'')
        | (Raise e, w'') => (Raise e, w'')
        end
    | (Raise e, w') => (Raise e, w')
    end.
Proof.
  revert w. induction n as [|n IH]; intros w.
  - cbn. unfold bind, ret. destruct (pick w) as [[i | e] w']; reflexivity.
  - change (draw pick (S (S n)) w)
      with ((i <- pick ;; served <- draw pick (S n) ;; ret (i :: served)) w).
    change (draw pick (S n) w)
      with ((i <- pick ;; served <- draw pick n ;; ret (i :: served)) w).
    unfold bind at 1 3. destruct (pick w) as [[i | e] w1]; [| reflexivity].
    unfold bind at 1 2. rewrite IH. unfold ret.
    destruct (draw pick n w1) as [[served | e] w2]; [| reflexivity].
    destruct (pick w2) as [[j | e] w3]; reflexivity.
Qed.

Section Draws.

Variable pick : M Z.
Variable pool_of : world -> option (list Z).
Variable size : Z.

Hypothesis pick_serves :
  forall w pool,
    pool_of w = Some pool ->
    exists (i : Z) (pool' : list Z) (w' : world),
      pick w = (Ok i, w') /\ pool_of w' = Some pool' /\
      serving_pool size pool ≡ₚ i :: pool'.

(** Draws that the pool can still serve return distinct members of it. *)
Lemma draw_within (n : nat) :
  forall w pool,
    pool_of w = Some pool -> (n <= length pool)%nat ->
    exists (served rest : list Z) (w' : world),
      draw pick n w = (Ok served, w') /\ pool_of w' = Some rest /\
      served ++ rest ≡ₚ pool /\ length served = n.
Proof.
  induction n as [|n IH]; intros w pool Hpool Hn.
  - exists [], pool, w. now repeat split.
  - destruct (pick_serves w pool Hpool) as (i & pool' & w1 & Hpick & Hpool' & Hp).
    rewrite serving_pool_nonempty in Hp by (destruct pool; [cbn in Hn; lia | easy]).
    destruct (IH w1 pool' Hpool') as (served & rest & w2 & Hd & Hrest & Hp' & Hl).
    { apply Permutation_length in Hp. cbn in Hp. lia. }
    exists (i :: served), rest, w2. split; [| split; [exact Hrest | split]].
    + cbn. unfold bind. rewrite Hpick, Hd. reflexivity.
    + cbn. now rewrite Hp', Hp.
    + cbn. now rewrite Hl.
Qed.

Lemma serves_from_pick : serves_without_replacement pick pool_of size.
Proof.
  intros w pool Hpool. split; [now apply pick_serves |].
  destruct (draw_within (length pool) w pool Hpool (le_n _))
    as (served & rest & w1 & Hd & Hrest & Hp & Hl).
  assert (rest = []) as ->.
  { apply Permutation_length in Hp. rewrite length_app in Hp.
    destruct rest; [reflexivity | cbn in Hp; lia]. }
  rewrite app_nil_r in Hp.
  destruct (pick_serves w1 [] Hrest) as (last & rest' & w2 & Hpick & _ & Hlast).
  exists served, last, w2. rewrite draw_snoc, Hd, Hpick.
  split; [reflexivity |]. split; [exact Hp |].
  assert (Hin : last ∈ range size).
  { change (serving_pool size []) with (range size) in Hlast.
    rewrite Hlast. apply list_elem_of_here. }
  split; [exact Hin |]. intros Hfull. now rewrite Hp, Hfull.
Qed.

End Draws.

Ltac run_pick H :=
  unfold try_except_ValueError, bind, get_attr, randint, lift, set_rem_tips,
    set_rem_quiz_ques, set_session, ret;
  cbn [session tape position rem_tips rem_quiz_ques state];
  rewrite ?H.

Lemma len_nonempty {A} (l : list A) : l <> [] -> 0 < len l.
Proof. unfold len. destruct l; [easy | cbn; lia]. Qed.

Lemma randint_position (pool : list Z) (raw : nat) :
  pool <> [] ->
  0 <= 0 + Z.of_nat raw mod (len pool - 1 - 0 + 1) < len pool.
Proof.
  intros Hne. pose proof (len_nonempty pool Hne).
  replace (len pool - 1 - 0 + 1) with (len pool) by lia.
  pose proof (Z.mod_pos_bound (Z.of_nat raw) (len pool)). lia.
Qed.

Lemma get_tip_from_sess_nonempty tips depth (w : world) (pool : list Z) :
  rem_tips (session w) = Some pool -> pool <> [] ->
  exists i k,
    pool !! k = Some i /\
    get_tip_from_sess tips (S depth) w = (Ok i, with_rem_tips w (delete k pool) 1).
Proof.
  intros H Hne.
  destruct (pop_in_range pool _ (randint_position pool (tape w (position w)) Hne))
    as (i & Hi & Hpop).
  exists i, (Z.to_nat (0 + Z.of_nat (tape w (position w)) mod (len pool - 1 - 0 + 1))).
  split; [exact Hi |].
  cbn [get_tip_from_sess]. run_pick H.
  replace (len pool - 1 <? 0) with false
    by (pose proof (len_nonempty pool Hne); lia).
  cbn [session tape position rem_tips]. rewrite H, Hpop. reflexivity.
Qed.

Lemma get_quiz_ques_from_sess_nonempty quiz depth (w : world) (pool : list Z) :
  rem_quiz_ques (session w) = Some pool -> pool <> [] ->
  exists i k,
    pool !! k = Some i /\
    get_quiz_ques_from_sess quiz (S depth) w
    = (Ok i, with_rem_quiz_ques w (delete k pool) 1).
Proof.
  intros H Hne.
  destruct (pop_in_range pool _ (randint_position pool (tape w (position w)) Hne))
    as (i & Hi & Hpop).
  exists i, (Z.to_nat (0 + Z.of_nat (tape w (position w)) mod (len pool - 1 - 0 + 1))).
  split; [exact Hi |].
  cbn [get_quiz_ques_from_sess]. run_pick H.
  replace (len pool - 1 <? 0) with false
    by (pose proof (len_nonempty pool Hne); lia).
  cbn [session tape position rem_quiz_ques]. rewrite H, Hpop. reflexivity.
Qed.

(** On an exhausted pool the first attempt raises [ValueError], the handler
    stores the full range and the nested call goes on from there. *)
Lemma get_tip_from_sess_refill tips depth (w : world) :
  rem_tips (session w) = Some [] ->
  get_tip_from_sess tips (S depth) w
  = get_tip_from_sess tips depth (with_rem_tips w (range (len tips)) 0).
Proof.
  intros H. cbn [get_tip_from_sess]. run_pick H. reflexivity.
Qed.

Lemma get_quiz_ques_from_sess_refill quiz depth (w : world) :
  rem_quiz_ques (session w) = Some [] ->
  get_quiz_ques_from_sess quiz (S depth) w
  = get_quiz_ques_from_sess quiz depth
      (with_rem_quiz_ques w (range (len quiz)) 0).
Proof.
  intros H. cbn [get_quiz_ques_from_sess]. run_pick H. reflexivity.
Qed.

Lemma range_nonempty (n : Z) : 0 < n -> range n <> [].
Proof.
  intros H E. pose proof (len_range n) as Hl. rewrite E in Hl.
  change (len (@nil Z)) with 0 in Hl. lia.
Qed.

Lemma get_tip_from_sess_serves tips depth :
  0 < len tips ->
  forall w pool,
    rem_tips (session w) = Some pool ->
    exists (i : Z) (pool' : list Z) (w' : world),
      get_tip_from_sess tips (S (S depth)) w = (Ok i, w') /\
      rem_tips (session w') = Some pool' /\
      serving_pool (len tips) pool ≡ₚ i :: pool'.
Proof.
  intros Hpos w pool H. destruct pool as [|x pool].
  - rewrite (get_tip_from_sess_refill tips _ w H).
    destruct (get_tip_from_sess_nonempty tips depth
                (with_rem_tips w (range (len tips)) 0) (range (len tips)))
      as (i & k & Hk & ->); [reflexivity | now apply range_nonempty |].
    eexists i, _, _. split; [reflexivity |]. split; [reflexivity |].
    now apply delete_Permutation.
  - destruct (get_tip_from_sess_nonempty tips (S depth) w (x :: pool) H)
      as (i & k & Hk & ->); [easy |].
    eexists i, _, _. split; [reflexivity |]. split; [reflexivity |].
    rewrite serving_pool_nonempty by easy. now apply delete_Permutation.
Qed.

Lemma get_quiz_ques_from_sess_serves quiz depth :
  0 < len quiz ->
  forall w pool,
    rem_quiz_ques (session w) = Some pool ->
    exists (i : Z) (pool' : list Z) (w' : world),
      get_quiz_ques_from_sess quiz (S (S depth)) w = (Ok i, w') /\
      rem_quiz_ques (session w') = Some pool' /\
      serving_pool (len quiz) pool ≡ₚ i :: pool'.
Proof.
  intros Hpos w pool H. destruct pool as [|x pool].
  - rewrite (get_quiz_ques_from_sess_refill quiz _ w H).
    destruct (get_quiz_ques_from_sess_nonempty quiz depth
                (with_rem_quiz_ques w (range (len quiz)) 0) (range (len quiz)))
      as (i & k & Hk & ->); [reflexivity | now apply range_nonempty |].
    eexists i, _, _. split; [reflexivity |]. split; [reflexivity |].
    now apply delete_Permutation.
  - destruct (get_quiz_ques_from_sess_nonempty quiz (S depth) w (x :: pool) H)
      as (i & k & Hk & ->); [easy |].
    eexists i, _, _. split; [reflexivity |]. split; [reflexivity |].
    rewrite serving_pool_nonempty by easy. now apply delete_Permutation.
Qed.

(** C3: over a catalog of at least one item, and with room for one nested
    call, a pick of a tip or of a quiz question returns an index whatever the
    stored pool holds: an index of the pool or, when the pool is exhausted,
    of the full range stored in its place, the rest being stored for the next
    pick.  One pick more than the pool holds serves every index of the pool
    once before an index of the refilled range comes; from the full pool of
    [N] indices, the pick [N+1] is the first that repeats an index. *)
Theorem picks_serve_without_replacement :
  forall (tips : list string) (quiz : list quiz_question) (depth : nat),
    (0 < len tips ->
     serves_without_replacement
       (get_tip_from_sess tips (S (S depth)))
       (fun w => rem_tips (session w)) (len tips)) /\
    (0 < len quiz ->
     serves_without_replacement
       (get_quiz_ques_from_sess quiz (S (S depth)))
       (fun w => rem_quiz_ques (session w)) (len quiz)).
Proof.
  intros tips quiz depth. split; intros Hpos.
  - apply serves_from_pick. now apply get_tip_from_sess_serves.
  - apply serves_from_pick. now apply get_quiz_ques_from_sess_serves.
Qed.

Example sample_tips_cycle :
  fst (draw (get_tip_from_sess Sample.tips Sample.limit) 4
            (snd (init_session Sample.quiz Sample.tips Sample.fresh)))
  = Ok [0; 1; 2; 0].
Proof. vm_compute. reflexivity. Qed.

Lemma with_rem_tips_same (w : world) (pool : list Z) :
  rem_tips (session w) = Some pool -> with_rem_tips w pool 0 = w.
Proof. destruct w as [[rq rt s] tp ps]. cbn. now intros ->. Qed.

(** C6, as the code has it: over an empty catalog of tips a pick on the
    exhausted pool never returns an index.  Each attempt refills the pool
    with the empty range and calls itself again, so the call ends only when
    the interpreter refuses a further nested call, whatever the limit is;
    the session is left as it was. *)
Theorem empty_catalog_pick_exhausts_recursion (depth : nat) (w : world) :
  rem_tips (session w) = Some [] ->
  get_tip_from_sess [] depth w
  = (Raise (RuntimeError "maximum recursion depth exceeded"), w).
Proof.
  intros H. induction depth as [|depth IH]; [reflexivity |].
  rewrite (get_tip_from_sess_refill [] depth w H).
  change (range (len (@nil string))) with (@nil Z).
  now rewrite (with_rem_tips_same w [] H).
Qed.

Lemma empty_catalog_pick_exhausts_recursion_witness :
  let w := snd (init_session Sample.quiz [] Sample.fresh) in
  rem_tips (session w) = Some [] /\
  get_tip_from_sess [] Sample.limit w
  = (Raise (RuntimeError "maximum recursion depth exceeded"), w).
Proof.
  split; [reflexivity |].
  apply (empty_catalog_pick_exhausts_recursion
           Sample.limit (snd (init_session Sample.quiz [] Sample.fresh))).
  reflexivity.
Defined.

(** C6 as stated fails: the pick over an empty catalog raises no error of
    the skill; what ends it is the recursion limit of the interpreter, be it
    1000 nested calls or 3. *)
Lemma empty_catalog_pick_hits_recursion_limit :
  fst (get_tip_from_sess [] 1000 (snd (init_session Sample.quiz [] Sample.fresh)))
  = Raise (RuntimeError "maximum recursion depth exceeded") /\
  fst (get_tip_from_sess [] 3 (snd (init_session Sample.quiz [] Sample.fresh)))
  = Raise (RuntimeError "maximum recursion depth exceeded") /\
  ~ (exists msg,
        fst (get_tip_from_sess [] 1000
               (snd (init_session Sample.quiz [] Sample.fresh)))
        = Raise (ValueError msg)).
Proof.
  split; [vm_compute; reflexivity |]. split; [vm_compute; reflexivity |].
  intros [msg H]. vm_compute in H. discriminate H.
Qed.

(** ** The summary of a graded question *)




(** ** Reaching a state with more answers than expected *)

(** C2 fails on the code: after [launch] and [play_quiz] have made the
    single_part question 0 active, the two answers of a TwoAnswerIntent are
    both stored, so two answers are collected where one is expected, and the
    handler raises on the unbound [speech] instead of prompting. *)
Theorem over_submission_exceeds_expected_count :
  let run :=
    launch Sample.quiz Sample.tips ;;;
    play_quiz Sample.quiz Sample.limit ;;;
    two_answer Difflib.ratio Sample.quiz Sample.render Sample.iteration "listen" "hear" in
  fst (run Sample.fresh) = Raise (UnboundLocalError "speech") /\
  state (session (snd (run Sample.fresh)))
  = Some (QuizContext 0 "single_part" 1 ["listen"; "hear"]) /\
  ~ (len ["listen"; "hear"] <= 1).
Proof.
  split; [vm_compute; reflexivity |]. split; [vm_compute; reflexivity |].
  vm_compute. intros H. now apply H.
Qed.

(** ** The state machine on the sample catalog *)

Lemma init_quiz_state_expected_count_witness :
  exists q,
    getitem Sample.quiz 1 = Ok q /\ type q = "multi_part" /\
    init_quiz_state Sample.quiz 1 Sample.fresh
    = (Ok tt, with_state Sample.fresh (QuizContext 1 "multi_part" 2 [])).
Proof.
  eexists. split; [reflexivity |]. split; [reflexivity |].
  exact (proj1 (proj2 (init_quiz_state_expected_count
                         Sample.quiz Sample.fresh 1 _ eq_refl)) eq_refl).
Defined.

Example init_quiz_state_single_part :
  init_quiz_state Sample.quiz 0 Sample.fresh
  = (Ok tt, with_state Sample.fresh (QuizContext 0 "single_part" 1 [])).
Proof. reflexivity. Qed.

Example init_quiz_state_unknown_type :
  init_quiz_state Sample.quiz 2 Sample.fresh
  = (Raise (ValueError "Unknown question type"), Sample.fresh).
Proof. reflexivity. Qed.

Lemma empty_submission_prompts_witness :
  let w := Sample.asking 1 "multi_part" 2 ["apple"] in
  state (session w) = Some (QuizContext 1 "multi_part" 2 ["apple"]) /\
  2 - len ["apple"] = 1 /\
  manage_quiz_state Difflib.ratio Sample.quiz Sample.render Sample.iteration [] w
  = (Ok (question "I need one more answer." "I need one more answer."), w).
Proof.
  split; [reflexivity |]. split; [reflexivity |].
  exact (proj1 (empty_submission_prompts
                  Difflib.ratio Sample.quiz Sample.render Sample.iteration
                  (Sample.asking 1 "multi_part" 2 ["apple"])
                  1 "multi_part" 2 ["apple"] eq_refl) eq_refl).
Defined.

Example empty_submission_two_missing :
  fst (manage_quiz_state Difflib.ratio Sample.quiz Sample.render Sample.iteration []
         (Sample.asking 1 "multi_part" 2 []))
  = Ok (question "I need 2 more answers." "I need 2 more answers.").
Proof. vm_compute. reflexivity. Qed.

(** A multi_part question answered over two turns is graded on the second. *)
Example multi_part_over_two_turns :
  let run :=
    single_answer Difflib.ratio Sample.quiz Sample.render Sample.iteration "aple" ;;;
    single_answer Difflib.ratio Sample.quiz Sample.render Sample.iteration "apply" in
  fst (single_answer Difflib.ratio Sample.quiz Sample.render Sample.iteration "aple"
         (Sample.asking 1 "multi_part" 2 []))
  = Ok (question "I need one more answer." "I need one more answer.") /\
  fst (run (Sample.asking 1 "multi_part" 2 []))
  = Ok (question
          "Great job! That is correct. Would you like a tip or another question?"
          "Great job! That is correct. Would you like a tip or another question?").
Proof. split; vm_compute; reflexivity. Qed.

Example grade_both_right :
  grade Difflib.ratio ["a"; "b"] ["a"; "b"]
  = Ok (true, Graded (<["b" := "b"]> {["a" := "a"]}) [] None).
Proof. vm_compute. reflexivity. Qed.

Example grade_transposed_letters :
  grade Difflib.ratio ["teh answer"] ["the answer"]
  = Ok (true, Graded {["teh answer" := "the answer"]} [] None).
Proof. vm_compute. reflexivity. Qed.

(** * Further properties of the code *)

(** ** What a grading records *)

Section GradingFacts.

Variable ratio : string -> string -> Q.

(** The loop invariant rule with what each kind of turn knows about the
    scores. *)
Lemma check_loop_invariant_scored
    (P : list string -> bool -> gmap string string -> list string ->
         list string -> Prop) :
  (forall handled resp ac c inc known m known',
      P handled ac c inc known ->
      m ∈ known -> (cutoff <= ratio m resp)%Q ->
      (forall x, x ∈ known -> (ratio x resp <= ratio m resp)%Q) ->
      known ≡ₚ m :: known' ->
      P (handled ++ [resp]) ac (<[resp := m]> c) inc known') ->
  (forall handled resp ac c inc known,
      P handled ac c inc known ->
      (forall x, x ∈ known -> ~ (cutoff <= ratio x resp)%Q) ->
      P (handled ++ [resp]) false c (inc ++ [resp]) known) ->
  forall responses handled ac c inc known,
    P handled ac c inc known ->
    exists ac' c' inc' known',
      check_loop ratio responses ac c inc known = Ok (ac', c', inc', known') /\
      P (handled ++ responses) ac' c' inc' known'.
Proof.
  intros Hmatch Hmiss responses.
  induction responses as [|resp rest IH]; intros handled ac c inc known HP.
  - exists ac, c, inc, known. rewrite app_nil_r. now split.
  - replace (handled ++ resp :: rest) with ((handled ++ [resp]) ++ rest)
      by now rewrite <- app_assoc.
    destruct (reaches_cutoff_dec ratio resp known) as [Hsome | Hnone].
    + destruct (check_loop_match ratio resp rest ac c inc known Hsome)
        as (m & known' & Hm & Hc & Hbest & _ & Hp & ->).
      apply (IH (handled ++ [resp]) ac (<[resp := m]> c) inc known').
      now apply (Hmatch handled resp ac c inc known m known').
    + rewrite (check_loop_miss ratio resp rest ac c inc known Hnone).
      apply (IH (handled ++ [resp]) false c (inc ++ [resp]) known).
      now apply (Hmiss handled resp ac).
Qed.

Lemma grade_from_loop
    (Q' : bool -> gmap string string -> list string -> list string -> Prop)
    (responses known : list string) :
  (exists ac c inc known',
      check_loop ratio responses true ∅ [] known = Ok (ac, c, inc, known') /\
      Q' ac c inc known') ->
  exists ac g,
    grade ratio responses known = Ok (ac, g) /\
    Q' ac (correct g) (incorrect g) (default [] (missing g)).
Proof.
  intros (ac & c & inc & known' & E & HQ).
  destruct (grade_unfold _ _ _ _ _ _ _ E) as [-> Hmiss].
  eexists _, _. split; [reflexivity |]. cbn [correct incorrect missing].
  now rewrite Hmiss.
Qed.

(** X1: every response is either rejected or consumes exactly one known
    answer, so the rejected responses and the known answers number as many
    as the responses and the missing answers; with more responses than known
    answers the grading is never all correct. *)
Theorem grade_counts (responses known : list string) :
  exists ac g,
    grade ratio responses known = Ok (ac, g) /\
    (length (incorrect g) + length known
     = length responses + length (default [] (missing g)))%nat /\
    ((length known < length responses)%nat -> ac = false).
Proof.
  apply (grade_from_loop
           (fun ac c inc known' =>
              (length inc + length known
               = length responses + length known')%nat /\
              ((length known < length responses)%nat -> ac = false))).
  destruct (check_loop_counts ratio responses known)
    as (ac & c & inc & known' & E & Hac & Hlen).
  exists ac, c, inc, known'. split; [exact E |]. split; [exact Hlen |].
  intros Hmore. destruct ac; [| reflexivity].
  destruct Hac as [Hac _]. rewrite (Hac eq_refl) in Hlen. cbn in Hlen. lia.
Qed.

(** X2: every entry of [correct] maps a response to a known answer whose
    score against that response reaches the cutoff. *)
Theorem grade_matches_sound (responses known : list string) :
  exists ac g,
    grade ratio responses known = Ok (ac, g) /\
    forall k v,
      correct g !! k = Some v ->
      k ∈ responses /\ v ∈ known /\ (cutoff <= ratio v k)%Q.
Proof.
  apply (grade_from_loop
           (fun ac c inc known' =>
              forall k v, c !! k = Some v ->
                          k ∈ responses /\ v ∈ known /\ (cutoff <= ratio v k)%Q)).
  destruct (check_loop_invariant_scored
              (fun handled ac c inc known' =>
                 (forall x, x ∈ known' -> x ∈ known) /\
                 forall k v, c !! k = Some v ->
                             k ∈ handled /\ v ∈ known /\
                             (cutoff <= ratio v k)%Q))
    with (responses := responses) (handled := @nil string) (ac := true)
         (c := (∅ : gmap string string)) (inc := @nil string) (known := known)
    as (ac & c & inc & known' & E & _ & HP).
  - intros handled resp ac c inc kn m kn' [Hsub HP] Hm Hc _ Hp. split.
    + intros x Hx. apply Hsub. rewrite Hp. now apply elem_of_cons; right.
    + intros k v. rewrite lookup_insert_Some.
      intros [[<- <-] | [Hne Hk]].
      * split; [apply elem_of_app; right; apply list_elem_of_here |].
        split; [now apply Hsub | exact Hc].
      * destruct (HP k v Hk) as (? & ? & ?).
        split; [apply elem_of_app; now left | now split].
  - intros handled resp ac c inc kn [Hsub HP] _. split; [exact Hsub |].
    intros k v Hk. destruct (HP k v Hk) as (? & ? & ?).
    split; [apply elem_of_app; now left | now split].
  - split; [tauto |]. intros k v Hk. now rewrite lookup_empty in Hk.
  - exists ac, c, inc, known'. split; [exact E |]. exact HP.
Qed.

(** X3: the rejected responses are listed in the order given; every
    response is rejected or is a key of [correct]; and no answer that is
    still missing reaches the cutoff against a rejected response. *)
Theorem grade_rejections (responses known : list string) :
  exists ac g,
    grade ratio responses known = Ok (ac, g) /\
    incorrect g `sublist_of` responses /\
    (forall s, s ∈ responses -> s ∈ incorrect g \/ is_Some (correct g !! s)) /\
    (forall s x, s ∈ incorrect g -> x ∈ default [] (missing g) ->
                 ~ (cutoff <= ratio x s)%Q).
Proof.
  apply (grade_from_loop
           (fun ac c inc known' =>
              inc `sublist_of` responses /\
              (forall s, s ∈ responses -> s ∈ inc \/ is_Some (c !! s)) /\
              (forall s x, s ∈ inc -> x ∈ known' -> ~ (cutoff <= ratio x s)%Q))).
  destruct (check_loop_invariant_scored
              (fun handled ac c inc known' =>
                 inc `sublist_of` handled /\
                 (forall s, s ∈ handled -> s ∈ inc \/ is_Some (c !! s)) /\
                 (forall s x, s ∈ inc -> x ∈ known' ->
                              ~ (cutoff <= ratio x s)%Q)))
    with (responses := responses) (handled := @nil string) (ac := true)
         (c := (∅ : gmap string string)) (inc := @nil string) (known := known)
    as (ac & c & inc & known' & E & HP).
  - intros handled resp ac c inc kn m kn' (Hsub & Hall & Hrej) _ _ _ Hp.
    split; [now apply sublist_inserts_r |]. split.
    + intros s Hs. apply elem_of_app in Hs as [Hs | Hs].
      * destruct (Hall s Hs) as [? | Hk]; [now left | right].
        rewrite lookup_insert_is_Some. destruct (decide (resp = s)); auto.
      * apply list_elem_of_singleton in Hs as ->. right.
        rewrite lookup_insert_is_Some. now left.
    + intros s x Hs Hx. apply Hrej; [exact Hs |].
      rewrite Hp. now apply elem_of_cons; right.
  - intros handled resp ac c inc kn (Hsub & Hall & Hrej) Hnone.
    split; [now apply sublist_app |]. split.
    + intros s Hs. apply elem_of_app in Hs as [Hs | Hs].
      * destruct (Hall s Hs) as [? | ?]; [left | now right].
        apply elem_of_app. now left.
      * left. apply elem_of_app. now right.
    + intros s x Hs Hx. apply elem_of_app in Hs as [Hs | Hs].
      * now apply Hrej.
      * apply list_elem_of_singleton in Hs as ->. now apply Hnone.
  - split; [reflexivity |]. split.
    + intros s Hs. now apply elem_of_nil in Hs.
    + intros s x Hs. now apply elem_of_nil in Hs.
  - exists ac, c, inc, known'. split; [exact E |]. exact HP.
Qed.

(** X4: against a question without known answers every response is
    rejected, in the order given, and nothing is missing. *)
Theorem grade_without_known_answers (responses : list string) :
  grade ratio responses []
  = Ok (bool_decide (responses = []), Graded ∅ responses None).
Proof.
  assert (H : forall inc ac,
             check_loop ratio responses ac ∅ inc []
             = Ok (if responses is [] then ac else false, ∅,
                   inc ++ responses, [])).
  { induction responses as [|resp rest IH]; intros inc ac.
    - cbn. now rewrite app_nil_r.
    - cbn. rewrite IH, <- app_assoc. cbn. now destruct rest. }
  unfold grade. rewrite H. cbn. now destruct responses.
Qed.

End GradingFacts.

(** ** Exact answers *)

Lemma lookup_identity_dict (l : list string) (s : string) :
  identity_dict l !! s = if decide (s ∈ l) then Some s else None.
Proof.
  unfold identity_dict. induction l as [|x l IH]; cbn.
  - rewrite lookup_empty. destruct (decide (s ∈ [])) as [H |]; [| reflexivity].
    now apply elem_of_nil in H.
  - rewrite lookup_insert. destruct (decide (x = s)) as [-> | Hne].
    + destruct (decide (s ∈ s :: l)) as [| H]; [reflexivity |].
      exfalso. apply H, list_elem_of_here.
    + rewrite IH. destruct (decide (s ∈ l)) as [Hin | Hout].
      * destruct (decide (s ∈ x :: l)) as [| H]; [reflexivity |].
        exfalso. apply H. now apply elem_of_cons; right.
      * destruct (decide (s ∈ x :: l)) as [H |]; [| reflexivity].
        apply elem_of_cons in H as [-> | H]; congruence.
Qed.

Section ExactAnswers.

Variable ratio : string -> string -> Q.
Variable known : list string.

Hypothesis known_distinct : NoDup known.
Hypothesis accepts_itself : forall s, s ∈ known -> (cutoff <= ratio s s)%Q.
Hypothesis prefers_itself :
  forall x s, x ∈ known -> s ∈ known -> x <> s -> (ratio x s < ratio s s)%Q.

(** While the pool holds exactly the responses still to come, each response
    consumes itself. *)
Lemma check_loop_exact (responses : list string) :
  forall ac c inc pool,
    pool ≡ₚ responses -> (forall s, s ∈ pool -> s ∈ known) ->
    exists c',
      check_loop ratio responses ac c inc pool = Ok (ac, c', inc, []) /\
      forall s, c' !! s = if decide (s ∈ responses) then Some s else c !! s.
Proof.
  induction responses as [|resp rest IH]; intros ac c inc pool Hp Hsub.
  - apply Permutation_nil_r in Hp as ->. exists c. split; [reflexivity |].
    intros s. destruct (decide (s ∈ [])) as [H |]; [| reflexivity].
    now apply elem_of_nil in H.
  - assert (Hin : resp ∈ pool) by (rewrite Hp; apply list_elem_of_here).
    destruct (check_loop_match ratio resp rest ac c inc pool)
      as (m & pool' & Hm & _ & Hbest & _ & Hp' & ->).
    { exists resp. split; [exact Hin |]. now apply accepts_itself, Hsub. }
    assert (m = resp) as ->.
    { destruct (decide (m = resp)) as [| Hne]; [assumption |]. exfalso.
      apply (Qlt_not_le _ _ (prefers_itself m resp (Hsub m Hm) (Hsub resp Hin) Hne)).
      now apply Hbest. }
    destruct (IH ac (<[resp := resp]> c) inc pool') as (c' & -> & Hc').
    { apply (Permutation_cons_inv (a := resp)). now rewrite <- Hp', Hp. }
    { intros s Hs. apply Hsub. rewrite Hp'. now apply elem_of_cons; right. }
    exists c'. split; [reflexivity |]. intros s. rewrite Hc'.
    destruct (decide (s ∈ rest)) as [Hr | Hr].
    + destruct (decide (s ∈ resp :: rest)) as [| H]; [reflexivity |].
      exfalso. apply H. now apply elem_of_cons; right.
    + rewrite lookup_insert. destruct (decide (resp = s)) as [-> | Hne].
      * destruct (decide (s ∈ s :: rest)) as [| H]; [reflexivity |].
        exfalso. apply H, list_elem_of_here.
      * destruct (decide (s ∈ resp :: rest)) as [H |]; [| reflexivity].
        apply elem_of_cons in H as [-> | H]; congruence.
Qed.

Lemma grade_exact (responses : list string) :
  responses ≡ₚ known ->
  grade ratio responses known = Ok (true, Graded (identity_dict known) [] None).
Proof.
  intros Hp.
  destruct (check_loop_exact responses true ∅ [] known) as (c & E & Hc);
    [now symmetry | auto |].
  unfold grade. rewrite E. cbn. f_equal. f_equal. f_equal.
  apply map_eq. intros s. rewrite Hc, lookup_identity_dict, lookup_empty.
  destruct (decide (s ∈ responses)) as [H | H];
    destruct (decide (s ∈ known)) as [H' | H']; try reflexivity.
  - exfalso. apply H'. now rewrite <- Hp.
  - exfalso. apply H. now rewrite Hp.
Qed.

End ExactAnswers.

(** X5: when the known answers are distinct and each of them scores against
    itself at least the cutoff and more than any other known answer does,
    giving exactly the known answers, in any order, is graded all correct:
    each answer is matched to itself, none is rejected, none is missing. *)
Theorem grade_exact_answers_all_correct
    (ratio : string -> string -> Q) (responses known : list string) :
  NoDup known ->
  (forall s, s ∈ known -> (cutoff <= ratio s s)%Q) ->
  (forall x s, x ∈ known -> s ∈ known -> x <> s ->
               (ratio x s < ratio s s)%Q) ->
  responses ≡ₚ known ->
  grade ratio responses known = Ok (true, Graded (identity_dict known) [] None).
Proof. intros Hnd Hself Hpref Hp. now apply grade_exact. Qed.

Lemma grade_exact_answers_all_correct_witness :
  grade Difflib.ratio ["apples"; "apple"] ["apple"; "apples"]
  = Ok (true, Graded (identity_dict ["apple"; "apples"]) [] None).
Proof.
  apply (grade_exact_answers_all_correct
           Difflib.ratio ["apples"; "apple"] ["apple"; "apples"]).
  - apply (bool_decide_unpack _). vm_compute. exact I.
  - intros s Hs.
    repeat (apply elem_of_cons in Hs as [-> | Hs]);
      [vm_compute; discriminate .. | now apply elem_of_nil in Hs].
  - intros x s Hx Hs Hne.
    repeat (apply elem_of_cons in Hx as [-> | Hx]);
      [| | now apply elem_of_nil in Hx];
      (repeat (apply elem_of_cons in Hs as [-> | Hs]);
       [| | now apply elem_of_nil in Hs]);
      first [congruence | vm_compute; reflexivity].
  - apply Permutation_swap.
Defined.

(** ** Answers in and out of a quiz *)

Lemma with_state_twice (w : world) (st st' : state_dict) :
  with_state (with_state w st) st' = with_state w st'.
Proof. reflexivity. Qed.

Section HandlerFacts.

Variable ratio : string -> string -> Q.
Variable leadership_quiz : list quiz_question.
Variable render_template : template -> string.
Variable dict_iter : gmap string string -> list string.

(** [check_answers] on an active question grades the collected answers
    against the values of the answers of the question. *)
Lemma check_answers_quiz (w : world) i t n (r : list string) q :
  state (session w) = Some (QuizContext i t n r) ->
  getitem leadership_quiz i = Ok q ->
  check_answers ratio leadership_quiz w
  = (grade ratio r (value <$> answers q), w).
Proof.
  intros H Hq. unfold check_answers, bind, get_attr, lift. rewrite H.
  cbn [state_responses state_index]. rewrite Hq.
  destruct (grade ratio r (value <$> answers q)); reflexivity.
Qed.

(** X6: an answer intent outside a quiz raises [KeyError] and leaves the
    session as it was: on the key 'state' when no tip or question was asked
    yet, on the key 'responses' after a tip. *)
Theorem answers_outside_quiz_raise (new : list string) (w : world) :
  (state (session w) = None ->
   manage_quiz_state ratio leadership_quiz render_template dict_iter new w
   = (Raise (KeyError "state"), w)) /\
  (state (session w) = Some TipContext ->
   manage_quiz_state ratio leadership_quiz render_template dict_iter new w
   = (Raise (KeyError "responses"), w)).
Proof.
  split; intros H; unfold manage_quiz_state, responses_extend, bind, get_attr;
    rewrite H; reflexivity.
Qed.

(** Whatever [manage_quiz_state] returns or raises on an active question,
    the new answers are stored after the collected ones. *)
Lemma manage_quiz_state_stores (w : world) i t n (r new : list string) :
  state (session w) = Some (QuizContext i t n r) ->
  state (session (snd (manage_quiz_state ratio leadership_quiz render_template
                         dict_iter new w)))
  = Some (QuizContext i t n (r ++ new)).
Proof.
  intros H.
  rewrite (manage_quiz_state_quiz ratio leadership_quiz render_template dict_iter
             w i t n r new H).
  destruct (len (r ++ new) =? n).
  - unfold bind.
    pose proof (process_answers_world
                  ratio leadership_quiz render_template dict_iter
                  (with_state w (QuizContext i t n (r ++ new)))) as Hw.
    destruct (process_answers ratio leadership_quiz render_template dict_iter _)
      as [[s | e] w1]; cbn in Hw; subst w1; reflexivity.
  - rewrite (prompt_user_for_more_answers_quiz render_template _ i t n (r ++ new))
      by reflexivity.
    reflexivity.
Qed.

(** X7: answers given over several turns accumulate: when the first batch
    leaves answers missing, handling it and then a second batch ends with
    the reply and the session of handling both together, and the session
    then holds the answers collected before followed by the first batch and
    by the second. *)
Theorem manage_quiz_state_accumulates
    (w : world) i t n (r first second : list string) :
  state (session w) = Some (QuizContext i t n r) ->
  len (r ++ first) < n ->
  (manage_quiz_state ratio leadership_quiz render_template dict_iter first ;;;
   manage_quiz_state ratio leadership_quiz render_template dict_iter second) w
  = manage_quiz_state ratio leadership_quiz render_template dict_iter
      (first ++ second) w /\
  state (session
           (snd ((manage_quiz_state ratio leadership_quiz render_template
                    dict_iter first ;;;
                  manage_quiz_state ratio leadership_quiz render_template
                    dict_iter second) w)))
  = Some (QuizContext i t n (r ++ first ++ second)).
Proof.
  intros H Hless.
  assert (E : (manage_quiz_state ratio leadership_quiz render_template
                 dict_iter first ;;;
               manage_quiz_state ratio leadership_quiz render_template
                 dict_iter second) w
              = manage_quiz_state ratio leadership_quiz render_template
                  dict_iter (first ++ second) w);
    [| split; [exact E |];
       rewrite E; apply (manage_quiz_state_stores w i t n r (first ++ second) H)].
  unfold bind at 1.
  rewrite (manage_quiz_state_quiz ratio leadership_quiz render_template dict_iter
             w i t n r first H).
  replace (len (r ++ first) =? n) with false by lia.
  rewrite (prompt_user_for_more_answers_quiz render_template _ i t n (r ++ first))
    by reflexivity.
  assert (Hreply :
            exists reply,
              (if n - len (r ++ first) =? 1
               then Ok (question (render_template need_one_more_answer)
                                 (render_template need_one_more_answer))
               else if n - len (r ++ first) >? 1
               then Ok (question
                          (render_template
                             (need_more_answers (n - len (r ++ first))))
                          (render_template
                             (need_more_answers (n - len (r ++ first)))))
               else Raise (UnboundLocalError "speech")) = Ok reply).
  { destruct (n - len (r ++ first) =? 1) eqn:E1; [eauto |].
    replace (n - len (r ++ first) >? 1) with true by lia. eauto. }
  destruct Hreply as [reply ->].
  rewrite (manage_quiz_state_quiz ratio leadership_quiz render_template dict_iter
             _ i t n (r ++ first) second) by reflexivity.
  rewrite (manage_quiz_state_quiz ratio leadership_quiz render_template dict_iter
             w i t n r (first ++ second) H).
  now rewrite with_state_twice, <- app_assoc.
Qed.

(** X8: when the answers collected reach the expected number and the
    question has at least that many answers, [manage_quiz_state] grades and
    returns a reply; the collected answers stay stored. *)
Theorem manage_quiz_state_grading_replies
    (w : world) i t n (r new : list string) q :
  state (session w) = Some (QuizContext i t n r) ->
  getitem leadership_quiz i = Ok q ->
  len (r ++ new) = n ->
  n <= len (answers q) ->
  exists text,
    manage_quiz_state ratio leadership_quiz render_template dict_iter new w
    = (Ok (question (text +:+ " " +:+ render_template continue)
                    (text +:+ " " +:+ render_template continue)),
       with_state w (QuizContext i t n (r ++ new))).
Proof.
  intros H Hq Hn Hle.
  rewrite (manage_quiz_state_quiz ratio leadership_quiz render_template dict_iter
             w i t n r new H).
  replace (len (r ++ new) =? n) with true by lia.
  set (w1 := with_state w (QuizContext i t n (r ++ new))).
  assert (Hproc : exists text,
             process_answers ratio leadership_quiz render_template dict_iter w1
             = (Ok text, w1)).
  { unfold process_answers, bind.
    rewrite (check_answers_quiz w1 i t n (r ++ new) q eq_refl Hq).
    destruct (check_loop_counts ratio (r ++ new) (value <$> answers q))
      as (ac & c & inc & known' & E & Hac & Hlen).
    destruct (grade_unfold _ _ _ _ _ _ _ E) as [-> _].
    destruct ac; [eauto |]. cbn [incorrect missing correct].
    destruct (len inc =? 1) eqn:E1; [| eauto].
    apply Z.eqb_eq in E1. unfold len in E1.
    destruct inc as [|wrong [|? ?]]; cbn [length] in E1; try lia.
    rewrite length_fmap in Hlen. unfold len in Hn, Hle.
    destruct known' as [|right rest]; [cbn [length] in Hlen; lia |].
    cbn. eauto. }
  destruct Hproc as [text Hproc]. exists text.
  unfold bind. rewrite Hproc. reflexivity.
Qed.

(** X9: a question stored without answers cannot be graded: once one
    response is collected for it where one is expected, [process_answers]
    subscripts the missing answers, which are [None], and [TypeError] is
    raised. *)
Theorem manage_quiz_state_no_answers_raises
    (w : world) i t (r new : list string) q resp :
  state (session w) = Some (QuizContext i t 1 r) ->
  getitem leadership_quiz i = Ok q ->
  answers q = [] ->
  r ++ new = [resp] ->
  manage_quiz_state ratio leadership_quiz render_template dict_iter new w
  = (Raise (TypeError "'NoneType' object has no attribute '__getitem__'"),
     with_state w (QuizContext i t 1 [resp])).
Proof.
  intros H Hq Hans Hr.
  rewrite (manage_quiz_state_quiz ratio leadership_quiz render_template dict_iter
             w i t 1 r new H).
  rewrite Hr. change (len [resp] =? 1) with true. cbv beta iota.
  unfold bind at 1. unfold process_answers. unfold bind at 1. cbv beta.
  rewrite (check_answers_quiz (with_state w (QuizContext i t 1 [resp]))
             i t 1 [resp] q eq_refl Hq), Hans.
  reflexivity.
Qed.

(** X10: grading only reads the session: whatever [check_answers] and
    [process_answers] return or raise, the session, the tape and the read
    position are as before. *)
Theorem grading_leaves_session (w : world) :
  snd (check_answers ratio leadership_quiz w) = w /\
  snd (process_answers ratio leadership_quiz render_template dict_iter w) = w.
Proof.
  split; [apply check_answers_world | apply process_answers_world].
Qed.

End HandlerFacts.

(** ** More on the selector *)

Lemma pool_ok_range (size : Z) : pool_ok size (range size).
Proof.
  unfold pool_ok, range. split.
  - apply (NoDup_fmap_2 Z.of_nat), NoDup_seq.
  - intros i Hi. apply list_elem_of_fmap in Hi as (j & -> & Hj).
    apply elem_of_seq in Hj. lia.
Qed.

Lemma pool_ok_serving_pool (size : Z) (pool : list Z) :
  pool_ok size pool -> pool_ok size (serving_pool size pool).
Proof.
  intros H. unfold serving_pool.
  destruct (len pool =? 0); [apply pool_ok_range | exact H].
Qed.

Lemma pool_ok_served (size : Z) (pool pool' : list Z) (i : Z) :
  pool_ok size pool -> pool ≡ₚ i :: pool' ->
  0 <= i < size /\ (i ∉ pool') /\ pool_ok size pool'.
Proof.
  intros [Hnd Hin] Hp. rewrite Hp in Hnd. apply NoDup_cons in Hnd as [Hi Hnd].
  split; [apply Hin; rewrite Hp; apply list_elem_of_here |].
  split; [exact Hi |]. split; [exact Hnd |].
  intros j Hj. apply Hin. rewrite Hp. now apply elem_of_cons; right.
Qed.

Lemma pick_position_eq (pool : list Z) (raw : nat) :
  Z.to_nat (0 + Z.of_nat raw mod (len pool - 1 - 0 + 1)) = pick_position pool raw.
Proof.
  unfold pick_position. f_equal.
  replace (len pool - 1 - 0 + 1) with (len pool) by lia. apply Z.add_0_l.
Qed.

Lemma get_tip_from_sess_nonempty_at tips depth (w : world) (pool : list Z) :
  rem_tips (session w) = Some pool -> pool <> [] ->
  exists i,
    pool !! pick_position pool (tape w (position w)) = Some i /\
    get_tip_from_sess tips (S depth) w
    = (Ok i, with_rem_tips w
               (delete (pick_position pool (tape w (position w))) pool) 1).
Proof.
  intros H Hne. rewrite <- pick_position_eq.
  destruct (pop_in_range pool _ (randint_position pool (tape w (position w)) Hne))
    as (i & Hi & Hpop).
  exists i. split; [exact Hi |].
  cbn [get_tip_from_sess]. run_pick H.
  replace (len pool - 1 <? 0) with false
    by (pose proof (len_nonempty pool Hne); lia).
  cbn [session tape position rem_tips]. rewrite H, Hpop. reflexivity.
Qed.

Lemma get_quiz_ques_from_sess_nonempty_at quiz depth (w : world)
    (pool : list Z) :
  rem_quiz_ques (session w) = Some pool -> pool <> [] ->
  exists i,
    pool !! pick_position pool (tape w (position w)) = Some i /\
    get_quiz_ques_from_sess quiz (S depth) w
    = (Ok i, with_rem_quiz_ques w
               (delete (pick_position pool (tape w (position w))) pool) 1).
Proof.
  intros H Hne. rewrite <- pick_position_eq.
  destruct (pop_in_range pool _ (randint_position pool (tape w (position w)) Hne))
    as (i & Hi & Hpop).
  exists i. split; [exact Hi |].
  cbn [get_quiz_ques_from_sess]. run_pick H.
  replace (len pool - 1 <? 0) with false
    by (pose proof (len_nonempty pool Hne); lia).
  cbn [session tape position rem_quiz_ques]. rewrite H, Hpop. reflexivity.
Qed.

Lemma serving_pool_nonempty_pos (size : Z) (pool : list Z) :
  0 < size -> serving_pool size pool <> [].
Proof.
  intros Hpos. unfold serving_pool. destruct pool as [|x pool].
  - now apply range_nonempty.
  - easy.
Qed.

(** The pick of a tip in full: the index at the drawn position of the
    serving pool; the rest of the serving pool is stored and one raw draw is
    consumed. *)
Lemma get_tip_from_sess_at tips depth (w : world) (pool : list Z) :
  0 < len tips -> rem_tips (session w) = Some pool ->
  exists i,
    serving_pool (len tips) pool
      !! pick_position (serving_pool (len tips) pool) (tape w (position w))
    = Some i /\
    get_tip_from_sess tips (S (S depth)) w
    = (Ok i,
       with_rem_tips w
         (delete (pick_position (serving_pool (len tips) pool)
                                (tape w (position w)))
                 (serving_pool (len tips) pool)) 1).
Proof.
  intros Hpos H. destruct pool as [|x pool].
  - rewrite (get_tip_from_sess_refill tips _ w H).
    change (serving_pool (len tips) []) with (range (len tips)).
    destruct (get_tip_from_sess_nonempty_at tips depth
                (with_rem_tips w (range (len tips)) 0) (range (len tips)))
      as (i & Hi & ->); [reflexivity | now apply range_nonempty |].
    exists i. split; [exact Hi | reflexivity].
  - rewrite serving_pool_nonempty by easy.
    now apply get_tip_from_sess_nonempty_at.
Qed.

Lemma get_quiz_ques_from_sess_at quiz depth (w : world) (pool : list Z) :
  0 < len quiz -> rem_quiz_ques (session w) = Some pool ->
  exists i,
    serving_pool (len quiz) pool
      !! pick_position (serving_pool (len quiz) pool) (tape w (position w))
    = Some i /\
    get_quiz_ques_from_sess quiz (S (S depth)) w
    = (Ok i,
       with_rem_quiz_ques w
         (delete (pick_position (serving_pool (len quiz) pool)
                                (tape w (position w)))
                 (serving_pool (len quiz) pool)) 1).
Proof.
  intros Hpos H. destruct pool as [|x pool].
  - rewrite (get_quiz_ques_from_sess_refill quiz _ w H).
    change (serving_pool (len quiz) []) with (range (len quiz)).
    destruct (get_quiz_ques_from_sess_nonempty_at quiz depth
                (with_rem_quiz_ques w (range (len quiz)) 0) (range (len quiz)))
      as (i & Hi & ->); [reflexivity | now apply range_nonempty |].
    exists i. split; [exact Hi | reflexivity].
  - rewrite serving_pool_nonempty by easy.
    now apply get_quiz_ques_from_sess_nonempty_at.
Qed.

(** X11: with both pools stored and both catalogs non-empty, a pick is
    decided by the next raw draw alone: it returns the index at position
    [raw mod length] of the serving pool, stores the serving pool without
    that position, moves the read position by one, and changes nothing
    else of the session. *)
Theorem picks_follow_the_draw
    (tips : list string) (quiz : list quiz_question) (depth : nat)
    (w : world) (tip_pool quiz_pool : list Z) :
  0 < len tips -> 0 < len quiz ->
  rem_tips (session w) = Some tip_pool ->
  rem_quiz_ques (session w) = Some quiz_pool ->
  (exists i,
      serving_pool (len tips) tip_pool
        !! pick_position (serving_pool (len tips) tip_pool)
                         (tape w (position w)) = Some i /\
      get_tip_from_sess tips (S (S depth)) w
      = (Ok i,
         World (Attributes
                  (Some quiz_pool)
                  (Some (delete (pick_position (serving_pool (len tips) tip_pool)
                                               (tape w (position w)))
                                (serving_pool (len tips) tip_pool)))
                  (state (session w)))
               (tape w) (S (position w)))) /\
  (exists i,
      serving_pool (len quiz) quiz_pool
        !! pick_position (serving_pool (len quiz) quiz_pool)
                         (tape w (position w)) = Some i /\
      get_quiz_ques_from_sess quiz (S (S depth)) w
      = (Ok i,
         World (Attributes
                  (Some (delete (pick_position (serving_pool (len quiz) quiz_pool)
                                               (tape w (position w)))
                                (serving_pool (len quiz) quiz_pool)))
                  (Some tip_pool)
                  (state (session w)))
               (tape w) (S (position w)))).
Proof.
  intros Ht Hq Htp Hqp. split.
  - destruct (get_tip_from_sess_at tips depth w tip_pool Ht Htp) as (i & Hi & ->).
    exists i. split; [exact Hi |]. unfold with_rem_tips. now rewrite Hqp.
  - destruct (get_quiz_ques_from_sess_at quiz depth w quiz_pool Hq Hqp)
      as (i & Hi & ->).
    exists i. split; [exact Hi |]. unfold with_rem_quiz_ques. now rewrite Htp.
Qed.

(** X12: a pool of distinct indices of the catalog stays one: the index
    picked is an index of the catalog, it is no longer in the stored pool,
    and the stored pool still holds distinct indices of the catalog. *)
Theorem picks_keep_pools_in_range
    (tips : list string) (quiz : list quiz_question) (depth : nat)
    (w : world) (tip_pool quiz_pool : list Z) :
  0 < len tips -> 0 < len quiz ->
  rem_tips (session w) = Some tip_pool ->
  rem_quiz_ques (session w) = Some quiz_pool ->
  pool_ok (len tips) tip_pool -> pool_ok (len quiz) quiz_pool ->
  (exists i pool' w',
      get_tip_from_sess tips (S (S depth)) w = (Ok i, w') /\
      rem_tips (session w') = Some pool' /\
      0 <= i < len tips /\ (i ∉ pool') /\ pool_ok (len tips) pool') /\
  (exists i pool' w',
      get_quiz_ques_from_sess quiz (S (S depth)) w = (Ok i, w') /\
      rem_quiz_ques (session w') = Some pool' /\
      0 <= i < len quiz /\ (i ∉ pool') /\ pool_ok (len quiz) pool').
Proof.
  intros Ht Hq Htp Hqp Hto Hqo. split.
  - destruct (get_tip_from_sess_serves tips depth Ht w tip_pool Htp)
      as (i & pool' & w' & E & Hp' & Hperm).
    exists i, pool', w'. split; [exact E |]. split; [exact Hp' |].
    apply (pool_ok_served _ (serving_pool (len tips) tip_pool));
      [now apply pool_ok_serving_pool | exact Hperm].
  - destruct (get_quiz_ques_from_sess_serves quiz depth Hq w quiz_pool Hqp)
      as (i & pool' & w' & E & Hp' & Hperm).
    exists i, pool', w'. split; [exact E |]. split; [exact Hp' |].
    apply (pool_ok_served _ (serving_pool (len quiz) quiz_pool));
      [now apply pool_ok_serving_pool | exact Hperm].
Qed.

Lemma get_tip_from_sess_frame tips depth :
  forall w,
    rem_quiz_ques (session (snd (get_tip_from_sess tips depth w)))
    = rem_quiz_ques (session w) /\
    state (session (snd (get_tip_from_sess tips depth w))) = state (session w) /\
    tape (snd (get_tip_from_sess tips depth w)) = tape w.
Proof.
  induction depth as [|depth IH]; intros w; [now repeat split |].
  destruct (rem_tips (session w)) as [[|x pool] |] eqn:H.
  - rewrite (get_tip_from_sess_refill tips depth w H).
    apply (IH (with_rem_tips w (range (len tips)) 0)).
  - destruct (get_tip_from_sess_nonempty tips depth w (x :: pool) H)
      as (i & k & _ & ->); [easy | now repeat split].
  - cbn [get_tip_from_sess]. run_pick H. now repeat split.
Qed.

Lemma get_quiz_ques_from_sess_frame quiz depth :
  forall w,
    rem_tips (session (snd (get_quiz_ques_from_sess quiz depth w)))
    = rem_tips (session w) /\
    state (session (snd (get_quiz_ques_from_sess quiz depth w)))
    = state (session w) /\
    tape (snd (get_quiz_ques_from_sess quiz depth w)) = tape w.
Proof.
  induction depth as [|depth IH]; intros w; [now repeat split |].
  destruct (rem_quiz_ques (session w)) as [[|x pool] |] eqn:H.
  - rewrite (get_quiz_ques_from_sess_refill quiz depth w H).
    apply (IH (with_rem_quiz_ques w (range (len quiz)) 0)).
  - destruct (get_quiz_ques_from_sess_nonempty quiz depth w (x :: pool) H)
      as (i & k & _ & ->); [easy | now repeat split].
  - cbn [get_quiz_ques_from_sess]. run_pick H. now repeat split.
Qed.

(** X13: whatever a pick returns or raises, at any recursion depth and on
    any session, the pick of a tip leaves the pool of questions and the
    state as they were, and the pick of a question leaves the pool of tips
    and the state as they were. *)
Theorem picks_leave_the_rest
    (tips : list string) (quiz : list quiz_question) (depth : nat)
    (w : world) :
  (rem_quiz_ques (session (snd (get_tip_from_sess tips depth w)))
   = rem_quiz_ques (session w) /\
   state (session (snd (get_tip_from_sess tips depth w)))
   = state (session w)) /\
  (rem_tips (session (snd (get_quiz_ques_from_sess quiz depth w)))
   = rem_tips (session w) /\
   state (session (snd (get_quiz_ques_from_sess quiz depth w)))
   = state (session w)).
Proof.
  destruct (get_tip_from_sess_frame tips depth w) as (? & ? & _).
  destruct (get_quiz_ques_from_sess_frame quiz depth w) as (? & ? & _).
  now repeat split.
Qed.

(** X14: in a session that [launch] has not initialised the pools are
    missing, and the [KeyError] of the lookup is not the [ValueError] that
    the picks handle: [get_new_tip] raises it after it has already set the
    state to the tip context, [play_quiz] raises it and changes nothing. *)
Theorem intents_before_launch_raise
    (tips : list string) (quiz : list quiz_question)
    (render_template : template -> string) (limit : nat) (w : world) :
  rem_tips (session w) = None ->
  rem_quiz_ques (session w) = None ->
  get_new_tip tips render_template (S limit) w
  = (Raise (KeyError "rem_tips"), with_state w TipContext) /\
  play_quiz quiz (S limit) w = (Raise (KeyError "rem_quiz_ques"), w).
Proof.
  intros Ht Hq. split.
  - unfold get_new_tip. unfold bind at 1. unfold set_session at 1.
    unfold bind at 1. cbn [get_tip_from_sess].
    unfold try_except_ValueError, bind, get_attr, with_state.
    cbn [session rem_tips]. rewrite Ht. reflexivity.
  - unfold play_quiz. unfold bind at 1. cbn [get_quiz_ques_from_sess].
    unfold try_except_ValueError, bind, get_attr. rewrite Hq. reflexivity.
Qed.

Lemma intents_before_launch_raise_witness :
  get_new_tip Sample.tips Sample.render Sample.limit Sample.fresh
  = (Raise (KeyError "rem_tips"), with_state Sample.fresh TipContext) /\
  play_quiz Sample.quiz Sample.limit Sample.fresh
  = (Raise (KeyError "rem_quiz_ques"), Sample.fresh).
Proof.
  exact (intents_before_launch_raise
           Sample.tips Sample.quiz Sample.render 999 Sample.fresh
           eq_refl eq_refl).
Defined.

(** ** Whole cycles of picks *)

Lemma draw_app (pick : M Z) (n m : nat) :
  forall w,
    draw pick (n + m) w
    = match draw pick n w with
      | (Ok served, w') =>
          match draw pick m w' with
          | (Ok more, w'') => (Ok (served ++ more), w'')
          | (Raise e, w'') => (Raise e, w'')
          end
      | (Raise e, w') => (Raise e, w')
      end.
Proof.
  induction n as [|n IH]; intros w.
  - cbn. unfold ret. destruct (draw pick m w) as [[more | e] w']; reflexivity.
  - change (draw pick (S n + m) w)
      with ((i <- pick ;; served <- draw pick (n + m) ;; ret (i :: served)) w).
    change (draw pick (S n) w)
      with ((i <- pick ;; served <- draw pick n ;; ret (i :: served)) w).
    unfold bind at 1 3. destruct (pick w) as [[i | e] w1]; [| reflexivity].
    unfold bind at 1 2. rewrite IH. unfold ret.
    destruct (draw pick n w1) as [[served | e] w2]; [| reflexivity].
    destruct (draw pick m w2) as [[more | e] w3]; reflexivity.
Qed.

Section Cycles.

Variable pick : M Z.
Variable pool_of : world -> option (list Z).
Variable size : Z.

Hypothesis size_pos : 0 < size.
Hypothesis pick_serves :
  forall w pool,
    pool_of w = Some pool ->
    exists (i : Z) (pool' : list Z) (w' : world),
      pick w = (Ok i, w') /\ pool_of w' = Some pool' /\
      serving_pool size pool ≡ₚ i :: pool'.

Lemma length_range : length (range size) = Z.to_nat size.
Proof. unfold range. now rewrite length_fmap, length_seq. Qed.

(** From the exhausted pool, as many picks as the catalog has items serve
    every index once and exhaust the pool again. *)
Lemma draw_cycle (w : world) :
  pool_of w = Some [] ->
  exists served w',
    draw pick (Z.to_nat size) w = (Ok served, w') /\
    served ≡ₚ range size /\ pool_of w' = Some [].
Proof.
  intros H.
  destruct (pick_serves w [] H) as (i & pool' & w1 & Hpick & Hpool' & Hp).
  change (serving_pool size []) with (range size) in Hp.
  assert (Hlen : length pool' = pred (Z.to_nat size)).
  { apply Permutation_length in Hp. rewrite length_range in Hp. cbn in Hp. lia. }
  destruct (draw_within pick pool_of size pick_serves (length pool') w1 pool'
              Hpool' (le_n _))
    as (served & rest & w2 & Hd & Hrest & Hp' & Hl).
  assert (rest = []) as ->.
  { apply Permutation_length in Hp'. rewrite length_app in Hp'.
    destruct rest; [reflexivity | cbn in Hp'; lia]. }
  rewrite app_nil_r in Hp'.
  exists (i :: served), w2.
  replace (Z.to_nat size) with (S (length pool')) by lia.
  split; [| split; [| exact Hrest]].
  - cbn. unfold bind. rewrite Hpick, Hd. reflexivity.
  - now rewrite Hp, Hp'.
Qed.

Lemma draw_cycles (k : nat) :
  forall w,
    pool_of w = Some [] ->
    exists served w',
      draw pick (k * Z.to_nat size) w = (Ok served, w') /\
      served ≡ₚ mjoin (replicate k (range size)) /\ pool_of w' = Some [].
Proof.
  induction k as [|k IH]; intros w H.
  - exists [], w. now repeat split.
  - destruct (draw_cycle w H) as (served & w1 & Hd & Hp & H1).
    destruct (IH w1 H1) as (more & w2 & Hd' & Hp' & H2).
    exists (served ++ more), w2. split; [| split; [| exact H2]].
    + change (S k * Z.to_nat size)%nat with (Z.to_nat size + k * Z.to_nat size)%nat.
      now rewrite draw_app, Hd, Hd'.
    + cbn. now rewrite Hp, Hp'.
Qed.

(** From the full pool likewise: the first cycle empties the stored pool,
    the others start from the exhausted pool. *)
Lemma draw_cycles_from_full (k : nat) (w : world) :
  pool_of w = Some (range size) ->
  exists served w',
    draw pick (k * Z.to_nat size) w = (Ok served, w') /\
    served ≡ₚ mjoin (replicate k (range size)).
Proof.
  intros H. destruct k as [|k]; [exists [], w; now split |].
  destruct (draw_within pick pool_of size pick_serves (Z.to_nat size) w
              (range size) H)
    as (served & rest & w1 & Hd & Hrest & Hp & Hl);
    [rewrite length_range; lia |].
  assert (rest = []) as ->.
  { apply Permutation_length in Hp. rewrite length_app, length_range in Hp.
    destruct rest; [reflexivity | cbn in Hp; lia]. }
  rewrite app_nil_r in Hp.
  destruct (draw_cycles k w1 Hrest) as (more & w2 & Hd' & Hp' & _).
  exists (served ++ more), w2. split.
  - change (S k * Z.to_nat size)%nat with (Z.to_nat size + k * Z.to_nat size)%nat.
    now rewrite draw_app, Hd, Hd'.
  - cbn. now rewrite Hp, Hp'.
Qed.

End Cycles.

(** X15: from the full pools that [launch] stores, [k] times as many picks
    as the catalog has items serve every index of the catalog exactly [k]
    times, for tips and for quiz questions alike. *)
Theorem picks_serve_whole_cycles
    (tips : list string) (quiz : list quiz_question) (depth k : nat)
    (w : world) :
  0 < len tips -> 0 < len quiz ->
  rem_tips (session w) = Some (range (len tips)) ->
  rem_quiz_ques (session w) = Some (range (len quiz)) ->
  (exists served w',
      draw (get_tip_from_sess tips (S (S depth))) (k * length tips) w
      = (Ok served, w') /\
      served ≡ₚ mjoin (replicate k (range (len tips)))) /\
  (exists served w',
      draw (get_quiz_ques_from_sess quiz (S (S depth))) (k * length quiz) w
      = (Ok served, w') /\
      served ≡ₚ mjoin (replicate k (range (len quiz)))).
Proof.
  intros Ht Hq Htp Hqp. split.
  - replace (length tips) with (Z.to_nat (len tips)) by (unfold len; lia).
    apply (draw_cycles_from_full
             (get_tip_from_sess tips (S (S depth)))
             (fun w => rem_tips (session w)) (len tips) Ht
             (get_tip_from_sess_serves tips depth Ht) k w Htp).
  - replace (length quiz) with (Z.to_nat (len quiz)) by (unfold len; lia).
    apply (draw_cycles_from_full
             (get_quiz_ques_from_sess quiz (S (S depth)))
             (fun w => rem_quiz_ques (session w)) (len quiz) Hq
             (get_quiz_ques_from_sess_serves quiz depth Hq) k w Hqp).
Qed.

Lemma picks_serve_whole_cycles_witness :
  (exists served w',
      draw (get_tip_from_sess Sample.tips Sample.limit) (2 * 3) Sample.launched
      = (Ok served, w') /\
      served ≡ₚ mjoin (replicate 2 (range 3))) /\
  (exists served w',
      draw (get_quiz_ques_from_sess Sample.quiz Sample.limit) (2 * 3)
           Sample.launched
      = (Ok served, w') /\
      served ≡ₚ mjoin (replicate 2 (range 3))).
Proof.
  exact (picks_serve_whole_cycles
           Sample.tips Sample.quiz 998 2 Sample.launched
           eq_refl eq_refl eq_refl eq_refl).
Defined.

(** ** The tip and quiz intents *)

Lemma getitem_in_range {A} (l : list A) (i : Z) :
  0 <= i < len l ->
  exists x, l !! Z.to_nat i = Some x /\ getitem l i = Ok x.
Proof.
  intros Hi. unfold getitem.
  replace (i <? 0) with false by lia.
  replace ((i <? 0) || (len l <=? i)) with false by lia.
  destruct (lookup_lt_is_Some_2 l (Z.to_nat i)) as [x Hx].
  - unfold len in Hi. lia.
  - exists x. now rewrite Hx.
Qed.

Section TipIntent.

Variable leadership_tips : list string.
Variable render_template : template -> string.
Variable limit : nat.

Hypothesis tips_nonempty : 0 < len leadership_tips.

Lemma get_new_tip_serves (w : world) (pool : list Z) :
  rem_tips (session w) = Some pool ->
  pool_ok (len leadership_tips) pool ->
  exists i tip pool' w',
    get_new_tip leadership_tips render_template (S (S limit)) w
    = (Ok (tip_reply render_template tip), w') /\
    leadership_tips !! Z.to_nat i = Some tip /\
    rem_tips (session w') = Some pool' /\
    serving_pool (len leadership_tips) pool ≡ₚ i :: pool' /\
    state (session w') = Some TipContext /\
    rem_quiz_ques (session w') = rem_quiz_ques (session w).
Proof.
  intros H Hok.
  destruct (get_tip_from_sess_at leadership_tips limit (with_state w TipContext)
              pool tips_nonempty H) as (i & Hi & Hpick).
  assert (Hperm : serving_pool (len leadership_tips) pool
                  ≡ₚ i :: delete (pick_position
                                    (serving_pool (len leadership_tips) pool)
                                    (tape w (position w)))
                                 (serving_pool (len leadership_tips) pool))
    by now apply delete_Permutation.
  destruct (pool_ok_served _ _ _ _ (pool_ok_serving_pool _ _ Hok) Hperm)
    as (Hrange & _ & _).
  destruct (getitem_in_range leadership_tips i Hrange) as (tip & Htip & Hget).
  eexists i, tip, _, _. split; [| split; [exact Htip |]].
  - unfold get_new_tip. unfold bind at 1. unfold set_session at 1.
    change (World _ (tape w) (position w)) with (with_state w TipContext).
    unfold bind at 1. rewrite Hpick. unfold bind, lift. rewrite Hget.
    reflexivity.
  - split; [reflexivity |]. split; [exact Hperm |]. now split.
Qed.

(** Requests that the stored pool can still serve read out distinct tips
    of it. *)
Lemma collect_tips_within (n : nat) :
  forall w pool,
    rem_tips (session w) = Some pool ->
    pool_ok (len leadership_tips) pool ->
    (n <= length pool)%nat ->
    exists (idxs rest : list Z) (w' : world),
      collect (get_new_tip leadership_tips render_template (S (S limit))) n w
      = (Ok (tip_reply render_template
               <$> ((fun i => default "" (leadership_tips !! Z.to_nat i))
                      <$> idxs)), w') /\
      rem_tips (session w') = Some rest /\
      idxs ++ rest ≡ₚ pool /\ length idxs = n.
Proof.
  induction n as [|n IH]; intros w pool H Hok Hn.
  - exists [], pool, w. now repeat split.
  - destruct (get_new_tip_serves w pool H Hok)
      as (i & tip & pool' & w1 & Hreply & Htip & Hpool' & Hp & _).
    rewrite serving_pool_nonempty in Hp by (destruct pool; [cbn in Hn; lia | easy]).
    destruct (pool_ok_served _ _ _ _ Hok Hp) as (_ & _ & Hok').
    destruct (IH w1 pool' Hpool' Hok') as (idxs & rest & w2 & Hc & Hrest & Hp' & Hl).
    { apply Permutation_length in Hp. cbn in Hp. lia. }
    exists (i :: idxs), rest, w2. split; [| split; [exact Hrest | split]].
    + cbn [collect]. unfold bind. rewrite Hreply, Hc. cbn. now rewrite Htip.
    + cbn. now rewrite Hp', Hp.
    + cbn. now rewrite Hl.
Qed.

Lemma tips_of_range :
  (fun i => default "" (leadership_tips !! Z.to_nat i))
    <$> range (len leadership_tips)
  = leadership_tips.
Proof.
  apply list_eq. intros j. unfold range, len.
  rewrite !list_lookup_fmap, Nat2Z.id.
  destruct (decide (j < length leadership_tips)%nat) as [Hlt | Hge].
  - rewrite lookup_seq_lt by exact Hlt. cbn. rewrite Nat2Z.id.
    destruct (lookup_lt_is_Some_2 leadership_tips j Hlt) as [x Hx].
    now rewrite Hx.
  - rewrite lookup_seq_ge by lia. cbn. symmetry. apply lookup_ge_None. lia.
Qed.

End TipIntent.

(** X16: in a session whose pool of tips holds distinct indices of a
    non-empty catalog, [get_new_tip] returns a reply: it reads out a tip of
    the catalog at an index of the serving pool, shows it on the card, sets
    the state to the tip context, stores the rest of the serving pool and
    leaves the pool of questions as it was. *)
Theorem get_new_tip_reads_a_tip
    (tips : list string) (render_template : template -> string) (limit : nat)
    (w : world) (pool : list Z) :
  0 < len tips ->
  rem_tips (session w) = Some pool ->
  pool_ok (len tips) pool ->
  exists i tip pool' w',
    get_new_tip tips render_template (S (S limit)) w
    = (Ok (tip_reply render_template tip), w') /\
    tips !! Z.to_nat i = Some tip /\
    rem_tips (session w') = Some pool' /\
    serving_pool (len tips) pool ≡ₚ i :: pool' /\
    state (session w') = Some TipContext /\
    rem_quiz_ques (session w') = rem_quiz_ques (session w).
Proof. intros Hpos H Hok. now apply get_new_tip_serves. Qed.

Lemma get_new_tip_reads_a_tip_witness :
  exists i tip pool' w',
    get_new_tip Sample.tips Sample.render Sample.limit Sample.launched
    = (Ok (tip_reply Sample.render tip), w') /\
    Sample.tips !! Z.to_nat i = Some tip /\
    rem_tips (session w') = Some pool' /\
    serving_pool 3 (range 3) ≡ₚ i :: pool' /\
    state (session w') = Some TipContext /\
    rem_quiz_ques (session w') = rem_quiz_ques (session Sample.launched).
Proof.
  exact (get_new_tip_reads_a_tip
           Sample.tips Sample.render 998 Sample.launched (range 3)
           eq_refl eq_refl (pool_ok_range 3)).
Defined.

(** X17: after [launch], as many tip requests as the catalog has tips all
    return a reply, and the tips read out are the tips of the catalog, each
    once, in the order of the draws. *)
Theorem launch_then_every_tip_once
    (tips : list string) (quiz : list quiz_question)
    (render_template : template -> string) (limit : nat) (w : world) :
  exists served w',
    (launch quiz tips ;;;
     collect (get_new_tip tips render_template (S (S limit))) (length tips)) w
    = (Ok (tip_reply render_template <$> served), w') /\
    served ≡ₚ tips.
Proof.
  unfold bind at 1.
  destruct (launch quiz tips w) as [[reply | e] w0] eqn:El;
    [| unfold launch, init_session, bind, set_rem_quiz_ques, set_rem_tips,
         set_session, ret in El; discriminate El].
  assert (H0 : rem_tips (session w0) = Some (range (len tips))).
  { unfold launch, init_session, bind, set_rem_quiz_ques, set_rem_tips,
      set_session, ret in El. injection El as _ <-. reflexivity. }
  destruct tips as [|tip tips'] eqn:Etips.
  - exists [], w0. now split.
  - rewrite <- Etips in *.
    assert (Hpos : 0 < len tips) by (rewrite Etips; unfold len; cbn; lia).
    destruct (collect_tips_within tips render_template limit Hpos
                (length tips) w0 (range (len tips)) H0 (pool_ok_range _))
      as (idxs & rest & w1 & Hc & _ & Hp & Hl).
    { unfold range. rewrite length_fmap, length_seq. unfold len. lia. }
    assert (rest = []) as ->.
    { apply Permutation_length in Hp.
      unfold range in Hp. rewrite length_app, length_fmap, length_seq in Hp.
      unfold len in Hp. destruct rest; [reflexivity | cbn in Hp; lia]. }
    rewrite app_nil_r in Hp.
    eexists _, w1. split; [exact Hc |].
    rewrite Hp. now rewrite tips_of_range.
Qed.

(** X18: over a non-empty catalog whose questions all have a known type,
    and with a pool of distinct indices of it, [play_quiz] returns the text
    of the question at an index of the serving pool and makes that question
    active: its index and type are stored with the number of answers
    expected for it and with no answer collected; the pool of tips is as
    before. *)
Theorem play_quiz_asks_a_question
    (quiz : list quiz_question) (limit : nat) (w : world) (pool : list Z) :
  0 < len quiz ->
  Forall known_type quiz ->
  rem_quiz_ques (session w) = Some pool ->
  pool_ok (len quiz) pool ->
  exists i q pool' w',
    play_quiz quiz (S (S limit)) w
    = (Ok (question (question_text q) (question_text q)), w') /\
    quiz !! Z.to_nat i = Some q /\
    state (session w')
    = Some (QuizContext i (type q) (expected_responses q) []) /\
    rem_quiz_ques (session w') = Some pool' /\
    serving_pool (len quiz) pool ≡ₚ i :: pool' /\
    rem_tips (session w') = rem_tips (session w).
Proof.
  intros Hpos Htyped H Hok.
  destruct (get_quiz_ques_from_sess_at quiz limit w pool Hpos H)
    as (i & Hi & Hpick).
  assert (Hperm : serving_pool (len quiz) pool
                  ≡ₚ i :: delete (pick_position (serving_pool (len quiz) pool)
                                                (tape w (position w)))
                                 (serving_pool (len quiz) pool))
    by now apply delete_Permutation.
  destruct (pool_ok_served _ _ _ _ (pool_ok_serving_pool _ _ Hok) Hperm)
    as (Hrange & _ & _).
  destruct (getitem_in_range quiz i Hrange) as (q & Hq & Hget).
  assert (Hknown : known_type q).
  { rewrite Forall_forall in Htyped. apply Htyped.
    apply list_elem_of_lookup. eauto. }
  exists i, q,
    (delete (pick_position (serving_pool (len quiz) pool) (tape w (position w)))
            (serving_pool (len quiz) pool)),
    (with_state
       (with_rem_quiz_ques w
          (delete (pick_position (serving_pool (len quiz) pool)
                                 (tape w (position w)))
                  (serving_pool (len quiz) pool)) 1)
       (QuizContext i (type q) (expected_responses q) [])).
  split; [| now repeat split].
  unfold play_quiz. unfold bind at 1. rewrite Hpick.
  unfold bind at 1. rewrite (init_quiz_state_entry quiz _ i q Hget).
  unfold expected_responses.
  destruct (decide (type q = "single_part")) as [E1 | N1].
  - unfold bind, lift, ret. rewrite Hget. reflexivity.
  - destruct (decide (type q = "multi_part")) as [E2 | N2];
      [| destruct Hknown; contradiction].
    unfold bind, lift, ret. rewrite Hget. reflexivity.
Qed.

Lemma play_quiz_asks_a_question_witness :
  let w := snd (launch Sample.typed_quiz Sample.tips Sample.fresh) in
  exists i q pool' w',
    play_quiz Sample.typed_quiz Sample.limit w
    = (Ok (question (question_text q) (question_text q)), w') /\
    Sample.typed_quiz !! Z.to_nat i = Some q /\
    state (session w')
    = Some (QuizContext i (type q) (expected_responses q) []) /\
    rem_quiz_ques (session w') = Some pool' /\
    serving_pool 2 (range 2) ≡ₚ i :: pool' /\
    rem_tips (session w') = rem_tips (session w).
Proof.
  apply (play_quiz_asks_a_question
           Sample.typed_quiz 998
           (snd (launch Sample.typed_quiz Sample.tips Sample.fresh)) (range 2)).
  - reflexivity.
  - apply Forall_cons_2; [now left |].
    apply Forall_cons_2; [now right | apply Forall_nil_2].
  - reflexivity.
  - apply pool_ok_range.
Defined.

(** X19: when the question that the draw selects has a type that
    [init_quiz_state] does not know, [play_quiz] raises
    ValueError("Unknown question type") only after the pick: the question is
    gone from the stored pool although it was never asked, and the state is
    as before. *)
Theorem play_quiz_unknown_type_consumes
    (quiz : list quiz_question) (limit : nat) (w : world) (pool : list Z)
    (i : Z) (q : quiz_question) :
  0 < len quiz ->
  rem_quiz_ques (session w) = Some pool ->
  serving_pool (len quiz) pool
    !! pick_position (serving_pool (len quiz) pool) (tape w (position w))
  = Some i ->
  getitem quiz i = Ok q ->
  ~ known_type q ->
  play_quiz quiz (S (S limit)) w
  = (Raise (ValueError "Unknown question type"),
     with_rem_quiz_ques w
       (delete (pick_position (serving_pool (len quiz) pool)
                              (tape w (position w)))
               (serving_pool (len quiz) pool)) 1).
Proof.
  intros Hpos H Hi Hget Hunknown.
  destruct (get_quiz_ques_from_sess_at quiz limit w pool Hpos H)
    as (i' & Hi' & Hpick).
  rewrite Hi in Hi'. injection Hi' as <-.
  unfold play_quiz. unfold bind at 1. rewrite Hpick.
  unfold bind at 1. rewrite (init_quiz_state_entry quiz _ i q Hget).
  destruct (decide (type q = "single_part")) as [E1 | N1];
    [exfalso; apply Hunknown; now left |].
  destruct (decide (type q = "multi_part")) as [E2 | N2];
    [exfalso; apply Hunknown; now right | reflexivity].
Qed.

Lemma play_quiz_unknown_type_consumes_witness :
  let w := World (session Sample.launched) (tape Sample.fresh) 2 in
  play_quiz Sample.quiz Sample.limit w
  = (Raise (ValueError "Unknown question type"),
     with_rem_quiz_ques w [0; 1] 1).
Proof.
  apply (play_quiz_unknown_type_consumes
           Sample.quiz 998
           (World (session Sample.launched) (tape Sample.fresh) 2) (range 3) 2
           (QuizQuestion "Describe your leadership style." "essay" [])).
  - reflexivity.
  - reflexivity.
  - reflexivity.
  - reflexivity.
  - intros [H | H]; discriminate H.
Defined.

(** ** Witnesses on the sample catalog *)

Lemma manage_quiz_state_accumulates_witness :
  let w := Sample.asking 1 "multi_part" 2 [] in
  let run :=
    manage_quiz_state Difflib.ratio Sample.quiz Sample.render Sample.iteration
      ["apple"] ;;;
    manage_quiz_state Difflib.ratio Sample.quiz Sample.render Sample.iteration
      ["pear"] in
  run w
  = manage_quiz_state Difflib.ratio Sample.quiz Sample.render Sample.iteration
      (["apple"] ++ ["pear"]) w /\
  state (session (snd (run w)))
  = Some (QuizContext 1 "multi_part" 2 ([] ++ ["apple"] ++ ["pear"])).
Proof.
  exact (manage_quiz_state_accumulates
           Difflib.ratio Sample.quiz Sample.render Sample.iteration
           (Sample.asking 1 "multi_part" 2 []) 1 "multi_part" 2 []
           ["apple"] ["pear"] eq_refl eq_refl).
Defined.

Lemma manage_quiz_state_grading_replies_witness :
  let w := Sample.asking 1 "multi_part" 2 ["apple"] in
  exists text,
    manage_quiz_state Difflib.ratio Sample.quiz Sample.render Sample.iteration ["pear"] w
    = (Ok (question (text +:+ " " +:+ Sample.render continue)
                    (text +:+ " " +:+ Sample.render continue)),
       with_state w (QuizContext 1 "multi_part" 2 (["apple"] ++ ["pear"]))).
Proof.
  apply (manage_quiz_state_grading_replies
           Difflib.ratio Sample.quiz Sample.render Sample.iteration
           (Sample.asking 1 "multi_part" 2 ["apple"]) 1 "multi_part" 2
           ["apple"] ["pear"]
           (QuizQuestion "Name two fruits of good leadership." "multi_part"
                         [Answer "apple"; Answer "apply"])).
  - reflexivity.
  - reflexivity.
  - reflexivity.
  - unfold len. cbn. lia.
Defined.

Lemma manage_quiz_state_no_answers_raises_witness :
  let quiz := [QuizQuestion "What is leadership?" "single_part" []] in
  let w := Sample.asking 0 "single_part" 1 [] in
  manage_quiz_state Difflib.ratio quiz Sample.render Sample.iteration ["vision"] w
  = (Raise (TypeError "'NoneType' object has no attribute '__getitem__'"),
     with_state w (QuizContext 0 "single_part" 1 ["vision"])).
Proof.
  exact (manage_quiz_state_no_answers_raises
           Difflib.ratio
           [QuizQuestion "What is leadership?" "single_part" []] Sample.render
           Sample.iteration
           (Sample.asking 0 "single_part" 1 []) 0 "single_part" [] ["vision"]
           (QuizQuestion "What is leadership?" "single_part" []) "vision"
           eq_refl eq_refl eq_refl eq_refl).
Defined.

Lemma manage_quiz_state_overshoot_witness :
  let w := Sample.asking 1 "multi_part" 2 ["apple"; "apply"] in
  manage_quiz_state Difflib.ratio Sample.quiz Sample.render Sample.iteration ["pear"] w
  = (Raise (UnboundLocalError "speech"),
     with_state w (QuizContext 1 "multi_part" 2
                               (["apple"; "apply"] ++ ["pear"]))).
Proof.
  exact (manage_quiz_state_overshoot
           Difflib.ratio Sample.quiz Sample.render Sample.iteration
           (Sample.asking 1 "multi_part" 2 ["apple"; "apply"])
           1 "multi_part" 2 ["apple"; "apply"] ["pear"] eq_refl eq_refl).
Defined.

Lemma manage_quiz_state_reply_keeps_bound_witness :
  let w := Sample.asking 1 "multi_part" 2 [] in
  let w' := with_state w (QuizContext 1 "multi_part" 2 ["apple"]) in
  manage_quiz_state Difflib.ratio Sample.quiz Sample.render Sample.iteration ["apple"] w
  = (Ok (question "I need one more answer." "I need one more answer."), w') /\
  state (session w') = Some (QuizContext 1 "multi_part" 2 ([] ++ ["apple"])) /\
  len ([] ++ ["apple"]) <= 2.
Proof.
  assert (E : manage_quiz_state Difflib.ratio Sample.quiz Sample.render Sample.iteration
                ["apple"] (Sample.asking 1 "multi_part" 2 [])
              = (Ok (question "I need one more answer."
                              "I need one more answer."),
                 with_state (Sample.asking 1 "multi_part" 2 [])
                            (QuizContext 1 "multi_part" 2 ["apple"])))
    by (vm_compute; reflexivity).
  split; [exact E |].
  exact (manage_quiz_state_reply_keeps_bound
           Difflib.ratio Sample.quiz Sample.render Sample.iteration
           (Sample.asking 1 "multi_part" 2 [])
           (with_state (Sample.asking 1 "multi_part" 2 [])
                       (QuizContext 1 "multi_part" 2 ["apple"]))
           1 "multi_part" 2 [] ["apple"]
           (question "I need one more answer." "I need one more answer.")
           eq_refl E).
Defined.

Lemma picks_follow_the_draw_witness :
  get_tip_from_sess Sample.tips Sample.limit Sample.launched
  = (Ok 0, World (Attributes (Some [0; 1; 2]) (Some [1; 2]) None)
                 (tape Sample.fresh) 1) /\
  get_quiz_ques_from_sess Sample.quiz Sample.limit Sample.launched
  = (Ok 0, World (Attributes (Some [1; 2]) (Some [0; 1; 2]) None)
                 (tape Sample.fresh) 1).
Proof.
  destruct (picks_follow_the_draw
              Sample.tips Sample.quiz 998 Sample.launched (range 3) (range 3)
              eq_refl eq_refl eq_refl eq_refl)
    as [(i & Hi & Ht) (j & Hj & Hq)].
  injection Hi as <-. injection Hj as <-.
  split; [exact Ht | exact Hq].
Defined.

Lemma picks_keep_pools_in_range_witness :
  (exists i pool' w',
      get_tip_from_sess Sample.tips Sample.limit Sample.launched = (Ok i, w') /\
      rem_tips (session w') = Some pool' /\
      0 <= i < 3 /\ (i ∉ pool') /\ pool_ok 3 pool') /\
  (exists i pool' w',
      get_quiz_ques_from_sess Sample.quiz Sample.limit Sample.launched
      = (Ok i, w') /\
      rem_quiz_ques (session w') = Some pool' /\
      0 <= i < 3 /\ (i ∉ pool') /\ pool_ok 3 pool').
Proof.
  exact (picks_keep_pools_in_range
           Sample.tips Sample.quiz 998 Sample.launched (range 3) (range 3)
           eq_refl eq_refl eq_refl eq_refl (pool_ok_range 3) (pool_ok_range 3)).
Defined.
